(** * Pyphen: hyphenation by Liang's patterns

    A shallow embedding of [pyphen/__init__.py] and the properties of
    its pattern parser, position finder and query operations.

    Python values are modelled as follows.
    - [str] is a list of characters; characters are the code points
      below 256 (the range [chr(int(hh, 16))] of the [^^hh] escape can
      produce).  Case mapping is a property of the Unicode database and
      is taken from the [Runtime] class, as are the codecs behind
      [bytes.decode] and the [LANGUAGES] table built at import time.
    - [int] is [Z]; list indices produced by [range] and [len] are [nat].
    - A [DataInt] is an [int] with a [data] attribute; a plain [int] is
      the case [data = None].
    - An operation that can raise returns a [result]; an operation that
      mutates shared objects threads a [World]. *)

From stdpp Require Import gmap strings list fin_maps sorting.
From Stdlib Require Import ZArith Ascii Strings.Byte Lia Permutation.

Local Open Scope Z_scope.

(** ** Python primitives *)

Module Py.

Abbreviation str := (list ascii).
Abbreviation bytes := (list byte).

(** String literals of the development. *)
Definition lit (s : string) : str := String.list_ascii_of_string s.

Inductive exn :=
| AttributeError | ValueError | IndexError | KeyError
| LookupError | UnicodeDecodeError | OSError.

Inductive result (A : Type) :=
| Ok (a : A)
| Raise (e : exn).
Arguments Ok {A} a.
Arguments Raise {A} e.

Global Instance result_bind : MBind result := λ A B k r,
  match r with Ok a => k a | Raise e => Raise e end.

(** [range(a, b)] with non-negative bounds. *)
Definition range (a b : nat) : list nat := seq a (b - a).

(** Adjustment of a slice bound against a length, as CPython's
    [PySlice_AdjustIndices] does for step 1. *)
Definition adjust (len : nat) (i : Z) : nat :=
  if i <? 0 then Z.to_nat (Z.max (i + Z.of_nat len) 0)
  else Z.to_nat (Z.min i (Z.of_nat len)).

(** [l[a:b]], [l[:b]], [l[a:]] *)
Definition slice {A} (l : list A) (a b : Z) : list A :=
  let lo := adjust (length l) a in
  let hi := adjust (length l) b in
  take (hi - lo) (drop lo l).
Definition slice_to {A} (l : list A) (b : Z) : list A :=
  take (adjust (length l) b) l.
Definition slice_from {A} (l : list A) (a : Z) : list A :=
  drop (adjust (length l) a) l.

(** [l[a:b] = new] *)
Definition slice_assign {A} (l : list A) (a b : Z) (new : list A) : list A :=
  let lo := adjust (length l) a in
  let hi := Nat.max lo (adjust (length l) b) in
  take lo l ++ new ++ drop hi l.

(** [l.insert(i, x)] *)
Definition insert {A} (l : list A) (i : Z) (x : A) : list A :=
  let k := adjust (length l) i in
  take k l ++ x :: drop k l.

(** [l[i]] *)
Definition getitem {A} (l : list A) (i : Z) : result A :=
  let k := if i <? 0 then i + Z.of_nat (length l) else i in
  if k <? 0 then Raise IndexError
  else match l !! Z.to_nat k with
       | Some x => Ok x
       | None => Raise IndexError
       end.

(** [s.split(sep)] for a one-character separator. *)
Fixpoint split (sep : ascii) (s : str) : list str :=
  match s with
  | [] => [[]]
  | c :: rest =>
      if decide (c = sep) then [] :: split sep rest
      else match split sep rest with
           | [] => [[c]]
           | piece :: pieces => (c :: piece) :: pieces
           end
  end.

(** [s.split(sep, 1)] *)
Fixpoint split1 (sep : ascii) (s : str) : list str :=
  match s with
  | [] => [[]]
  | c :: rest =>
      if decide (c = sep) then [[]; rest]
      else match split1 sep rest with
           | [] => [[c]]
           | piece :: pieces => (c :: piece) :: pieces
           end
  end.

(** [s.replace(old, new)] for a one-character [old]. *)
Definition replace (old : ascii) (new : str) (s : str) : str :=
  flat_map (fun c => if decide (c = old) then new else [c]) s.

(** [sep.join(pieces)] *)
Fixpoint join (sep : str) (pieces : list str) : str :=
  match pieces with
  | [] => []
  | [p] => p
  | p :: rest => p ++ sep ++ join sep rest
  end.

(** [s.startswith(prefix)] *)
Fixpoint startswith (s prefix : str) : bool :=
  match prefix, s with
  | [], _ => true
  | p :: prefix', c :: s' => if decide (c = p) then startswith s' prefix' else false
  | _ :: _, [] => false
  end.

(** [s.strip()]: [sp] tells the characters that are stripped. *)
Fixpoint lstrip {A} (sp : A → bool) (s : list A) : list A :=
  match s with
  | [] => []
  | c :: rest => if sp c then lstrip sp rest else s
  end.
Definition strip {A} (sp : A → bool) (s : list A) : list A :=
  rev (lstrip sp (rev (lstrip sp s))).

(** The whitespace of [bytes.strip]. *)
Definition bytes_isspace (b : byte) : bool :=
  match b with
  | x09 | x0a | x0b | x0c | x0d | x20 => true
  | _ => false
  end.

(** The whitespace of [str.strip] among the code points below 256. *)
Definition str_isspace (c : ascii) : bool :=
  let n := nat_of_ascii c in
  ((9 <=? n) && (n <=? 13) || (28 <=? n) && (n <=? 32)
   || (n =? 133) || (n =? 160))%nat.

(** [b.decode('ascii')] *)
Definition decode_ascii (b : bytes) : result str :=
  if forallb (fun x => (Byte.to_nat x <? 128)%nat) b
  then Ok (map ascii_of_byte b)
  else Raise UnicodeDecodeError.

(** The regular expression class [\d] among the code points below 256,
    with the value [int] gives the digit. *)
Definition digit (c : ascii) : option Z :=
  let n := nat_of_ascii c in
  if ((48 <=? n) && (n <=? 57))%nat then Some (Z.of_nat n - 48) else None.

(** The class [[0-9a-f]] with the value of the hexadecimal digit. *)
Definition hex (c : ascii) : option nat :=
  let n := nat_of_ascii c in
  if ((48 <=? n) && (n <=? 57))%nat then Some (n - 48)%nat
  else if ((97 <=? n) && (n <=? 102))%nat then Some (n - 87)%nat
  else None.

(** The whitespace that [int] skips around a number, among the code
    points below 256: the ASCII whitespace, and the whitespace from
    U+0080 on, which [int] turns into spaces first.  U+001C to U+001F,
    which [str.strip] removes, are not skipped. *)
Definition int_isspace (c : ascii) : bool :=
  let n := nat_of_ascii c in
  ((9 <=? n) && (n <=? 13) || (n =? 32) || (n =? 133) || (n =? 160))%nat.

(** [int(s)] for a string: surrounding whitespace, a sign, and decimal
    digits that single underscores may separate; more digits than
    [sys.get_int_max_str_digits()], 4300 unless it was changed, are
    refused. *)
Fixpoint int_digits (acc : Z) (s : str) : option Z :=
  match s with
  | [] => None
  | c :: rest =>
      match digit c with
      | None => None
      | Some d =>
          let acc' := 10 * acc + d in
          match rest with
          | [] => Some acc'
          | c2 :: rest2 =>
              if decide (c2 = "_"%char) then int_digits acc' rest2
              else int_digits acc' rest
          end
      end
  end.

Definition int_max_str_digits : Z := 4300.

Definition int_of_str (s : str) : result Z :=
  let s := strip int_isspace s in
  let r := match s with
           | c :: rest =>
               if decide (c = "-"%char) then Z.opp <$> int_digits 0 rest
               else if decide (c = "+"%char) then int_digits 0 rest
               else int_digits 0 s
           | [] => None
           end in
  match r with
  | Some z =>
      if int_max_str_digits
         <? Z.of_nat (length (filter (fun c => is_Some (digit c)) s))
      then Raise ValueError
      else Ok z
  | None => Raise ValueError
  end.

(** A binary stream cut into lines, each with its newline. *)
Fixpoint readlines (s : bytes) : list bytes :=
  match s with
  | [] => []
  | b :: rest =>
      if Byte.eqb b x0a then [b] :: readlines rest
      else match readlines rest with
           | [] => [[b]]
           | line :: more => (b :: line) :: more
           end
  end.

End Py.
Import Py.

(** ** The Python runtime the module relies on *)

Class Runtime := {
  (** [str.lower], [str.upper], [str.isupper] *)
  str_lower : str → str;
  str_upper : str → str;
  str_isupper : str → bool;
  (** [bytes.decode(charset)]: [None] when the codec is unknown
      (LookupError), and the codec itself answers [None] on bytes it
      cannot decode (UnicodeDecodeError). *)
  codec : str → option (bytes → option str);
  (** The [LANGUAGES] table filled from the dictionaries directory when
      the module is imported. *)
  LANGUAGES : gmap str str;
}.

(** ** DataInt *)

Definition Change : Type := str * Z * Z.

Record DataInt := mkDataInt {
  val : Z;
  data : option Change;
}.

Global Instance Change_eq_dec : EqDecision Change.
Proof. solve_decision. Defined.
Global Instance DataInt_eq_dec : EqDecision DataInt.
Proof. solve_decision. Defined.

Definition int (z : Z) : DataInt := mkDataInt z None.

(** [DataInt(value, reference=reference)]: the data of the reference is
    taken over when the reference is truthy. *)
Definition DataInt_of_reference (value : Z) (reference : DataInt) : DataInt :=
  if val reference =? 0 then mkDataInt value None
  else mkDataInt value (data reference).

(** [max(a, b)] returns its first argument unless the second is
    strictly greater. *)
Definition py_max (a b : DataInt) : DataInt :=
  if val a <? val b then b else a.

(** ** HyphDict *)

(** An entry of [self.patterns]: the start offset, which the parser
    counts up from 0, and the weights. *)
Definition Pattern : Type := nat * list DataInt.

Record HyphDict := mkHyphDict {
  patterns : gmap str Pattern;
  cache : gmap str (list DataInt);
  maxlen : nat;
}.

Section PositionFinder.
Context `{Runtime}.

(** Lines 211-214: [references[slice_] = map(max, values, references[slice_])] *)
Definition overlay (i : nat) (pattern : Pattern) (references : list DataInt)
  : list DataInt :=
  let '(offset, values) := pattern in
  let lo := (i + offset)%nat in
  let hi := (i + offset + length values)%nat in
  let old := take (hi - lo) (drop lo references) in
  take lo references ++ zip_with py_max values old ++ drop hi references.

(** Lines 209-214, the body of the inner loop.  An entry is a pair, so
    [if pattern:] holds for every key found. *)
Definition scan_j (pats : gmap str Pattern) (pointed_word : str) (i : nat)
    (references : list DataInt) (j : nat) : list DataInt :=
  match pats !! take (j - i) (drop i pointed_word) with
  | Some pattern => overlay i pattern references
  | None => references
  end.

(** Lines 207-214, the body of the outer loop. *)
Definition scan_i (pats : gmap str Pattern) (mlen : nat) (pointed_word : str)
    (references : list DataInt) (i : nat) : list DataInt :=
  fold_left (scan_j pats pointed_word i)
    (range (i + 1) (Nat.min (i + mlen) (length pointed_word) + 1))
    references.

(** Lines 203-214. *)
Definition pointed (word : str) : str := lit "." ++ word ++ lit ".".

Definition scan (pats : gmap str Pattern) (mlen : nat) (pointed_word : str)
  : list DataInt :=
  fold_left (scan_i pats mlen pointed_word)
    (range 0 (length pointed_word - 1))
    (replicate (length pointed_word + 1) (int 0)).

(** Lines 216-218: the odd references, shifted by the leading dot. *)
Fixpoint points_from (i : nat) (references : list DataInt) : list DataInt :=
  match references with
  | [] => []
  | reference :: rest =>
      if val reference mod 2 =? 0 then points_from (S i) rest
      else DataInt_of_reference (Z.of_nat i - 1) reference
           :: points_from (S i) rest
  end.

Definition points (references : list DataInt) : list DataInt :=
  points_from 0 references.

(** Lines 203-218 for an already lowercased word. *)
Definition find_positions (pats : gmap str Pattern) (mlen : nat) (word : str)
  : list DataInt :=
  points (scan pats mlen (pointed word)).

(** [HyphDict.positions] *)
Definition HyphDict_positions (self : HyphDict) (word : str)
  : list DataInt * HyphDict :=
  let word := str_lower word in
  match cache self !! word with
  | Some pts => (pts, self)
  | None =>
      let pts := find_positions (patterns self) (maxlen self) word in
      (pts, mkHyphDict (patterns self) (<[word := pts]> (cache self))
                       (maxlen self))
  end.

End PositionFinder.

(** ** The matches of a word, in scan order

    The double loop of [HyphDict.positions] applies one overlay for each
    pair [(i, j)] whose substring is a key: a [Match] is the start index
    with the pattern found. *)

Definition Match : Type := nat * Pattern.

Definition matches_i (pats : gmap str Pattern) (mlen : nat) (pointed_word : str)
    (i : nat) : list Match :=
  omap (fun j => (fun pattern => (i, pattern))
                   <$> pats !! take (j - i) (drop i pointed_word))
    (range (i + 1) (Nat.min (i + mlen) (length pointed_word) + 1)).

Definition matches (pats : gmap str Pattern) (mlen : nat) (pointed_word : str)
  : list Match :=
  flat_map (matches_i pats mlen pointed_word)
    (range 0 (length pointed_word - 1)).

(** The overlays of a list of matches, applied in the order of the list. *)
Definition overlay_all (ms : list Match) (references : list DataInt)
  : list DataInt :=
  fold_left (fun refs m => overlay (fst m) (snd m) refs) ms references.

(** The weight a match gives to accumulator index [k], if it covers it. *)
Definition weight_at (m : Match) (k : nat) : option DataInt :=
  let '(i, (offset, values)) := m in
  if decide (i + offset ≤ k)%nat then values !! (k - (i + offset))%nat
  else None.

(** What one overlay makes of the entry [r] at index [k]. *)
Definition combine (m : Match) (k : nat) (r : DataInt) : DataInt :=
  match weight_at m k with
  | Some v => py_max v r
  | None => r
  end.

(** ** Pyphen *)

(** [HyphDict] objects live in a heap; [hdcache] and the [hd] attribute
    of a [Pyphen] instance hold references into it, so that instances
    created for one file share one object and its word cache. *)
Definition loc := nat.

Record World := mkWorld {
  (** the files [open(filename, 'rb')] can read *)
  files : str → option bytes;
  (** the module-level [hdcache] *)
  hdcache : gmap str loc;
  heap : list HyphDict;
}.

(** An instance; [hd = None] is an instance without the attribute. *)
Record Pyphen := mkPyphen {
  left : Z;
  right : Z;
  hd : option loc;
}.

(** Computations that read and update the world and may raise. *)
Definition M (A : Type) : Type := World → result A * World.

(** A generator run to its end: what it yields, then [None] for a
    normal end or the exception that ended it.  Nothing of the body
    runs before the generator is first advanced. *)
Definition Generator (A : Type) : Type := list A * option exn.

Section Queries.
Context `{Runtime}.

(** [self.hd.positions(word)]: the call updates the shared object.  A
    reference outside the heap does not occur in a world the module
    reaches (see [Pyphen_init_ok]); it is answered like a missing
    attribute. *)
Definition hd_positions (self : Pyphen) (word : str) : M (list DataInt) :=
  fun w =>
    match hd self with
    | None => (Raise AttributeError, w)
    | Some l =>
        match heap w !! l with
        | None => (Raise AttributeError, w)
        | Some d =>
            let '(pts, d') := HyphDict_positions d word in
            (Ok pts, mkWorld (files w) (hdcache w) (<[l := d']> (heap w)))
        end
    end.

(** [Pyphen.positions] *)
Definition Pyphen_positions (self : Pyphen) (word : str) : M (list DataInt) :=
  fun w =>
    let right_ := Z.of_nat (length word) - right self in
    match hd_positions self word w with
    | (Raise e, w') => (Raise e, w')
    | (Ok pts, w') =>
        (Ok (filter (fun i => left self ≤ val i ∧ val i ≤ right_) pts), w')
    end.

(** Lines 265-274: the pair yielded for one position. *)
Definition split_at (word : str) (position : DataInt) : result (str * str) :=
  match data position with
  | Some (change, index, cut) =>
      let index := index + val position in
      let change := if str_isupper word then str_upper change else change in
      match split "=" change with
      | [c1; c2] =>
          Ok (slice_to word index ++ c1, c2 ++ slice_from word (index + cut))
      | _ => Raise ValueError
      end
  | None => Ok (slice_to word (val position), slice_from word (val position))
  end.

Fixpoint yields (word : str) (positions : list DataInt)
  : Generator (str * str) :=
  match positions with
  | [] => ([], None)
  | position :: rest =>
      match split_at word position with
      | Raise e => ([], Some e)
      | Ok item => let '(items, fin) := yields word rest in (item :: items, fin)
      end
  end.

(** [Pyphen.iterate] *)
Definition Pyphen_iterate (self : Pyphen) (word : str)
  : World → Generator (str * str) * World :=
  fun w =>
    match Pyphen_positions self word w with
    | (Raise e, w') => (([], Some e), w')
    | (Ok pts, w') => (yields word (rev pts), w')
    end.

(** Lines 290-292: the loop over the generator; items after the one
    returned are never produced. *)
Fixpoint wrap_loop (width : Z) (hyphen : str) (items : list (str * str))
    (fin : option exn) : result (option (str * str)) :=
  match items with
  | (w1, w2) :: rest =>
      if Z.of_nat (length w1) <=? width then Ok (Some (w1 ++ hyphen, w2))
      else wrap_loop width hyphen rest fin
  | [] => match fin with None => Ok None | Some e => Raise e end
  end.

(** [Pyphen.wrap] *)
Definition Pyphen_wrap (self : Pyphen) (word : str) (width : Z) (hyphen : str)
  : M (option (str * str)) :=
  fun w =>
    let width := width - Z.of_nat (length hyphen) in
    let '((items, fin), w') := Pyphen_iterate self word w in
    (wrap_loop width hyphen items fin, w').

(** Lines 307-315: one edit of [word_list]. *)
Definition insert_step (word hyphen : str) (word_list : list str)
    (position : DataInt) : list str :=
  match data position with
  | Some (change, index, cut) =>
      let index := index + val position in
      let change := if str_isupper word then str_upper change else change in
      slice_assign word_list index (index + cut)
        (map (fun c => [c]) (replace "=" hyphen change))
  | None => insert word_list (val position) hyphen
  end.

(** [Pyphen.inserted] *)
Definition Pyphen_inserted (self : Pyphen) (word hyphen : str) : M str :=
  fun w =>
    let word_list := map (fun c => [c]) word in
    match Pyphen_positions self word w with
    | (Raise e, w') => (Raise e, w')
    | (Ok pts, w') =>
        (Ok (concat (fold_left (insert_step word hyphen) (rev pts) word_list)),
         w')
    end.

End Queries.

(** ** The dictionary parser, [HyphDict.__init__] *)

(** [parse = re.compile(r'(\d?)(\D?)').findall]: an optional digit, then
    an optional other character, until the text is consumed; the search
    ends with the empty match at the end of the text. *)
Fixpoint parse (s : str) : list (str * str) :=
  match s with
  | [] => [([], [])]
  | c :: rest =>
      match digit c with
      | Some _ =>
          match rest with
          | c2 :: rest2 =>
              match digit c2 with
              | Some _ => ([c], []) :: parse rest
              | None => ([c], [c2]) :: parse rest2
              end
          | [] => ([c], []) :: parse rest
          end
      | None => ([], [c]) :: parse rest
      end
  end.

(** [parse_hex = re.compile(r'\^{2}([0-9a-f]{2})').sub] with the
    replacement [chr(int(match.group(1), 16))]. *)
Fixpoint parse_hex (s : str) : str :=
  match s with
  | [] => []
  | c :: rest =>
      match rest with
      | c2 :: h1 :: h2 :: rest4 =>
          match hex h1, hex h2 with
          | Some a, Some b =>
              if decide (c = "^"%char ∧ c2 = "^"%char)
              then ascii_of_nat (16 * a + b) :: parse_hex rest4
              else c :: parse_hex rest
          | _, _ => c :: parse_hex rest
          end
      | _ => c :: parse_hex rest
      end
  end.

(** [AlternativeParser]: the [index] attribute changes at each call. *)
Record AlternativeParser := mkAlternativeParser {
  change : str;
  index : Z;
  cut : Z;
}.

(** [AlternativeParser.__init__] *)
Definition AlternativeParser_init (pattern alternative : str)
  : result AlternativeParser :=
  let _alternative := split "," alternative in
  change_ ← getitem _alternative 0;
  index_ ← getitem _alternative 1 ≫= int_of_str;
  cut_ ← getitem _alternative 2 ≫= int_of_str;
  Ok (mkAlternativeParser change_
        (if startswith pattern (lit ".") then index_ + 1 else index_) cut_).

(** [AlternativeParser.__call__] *)
Definition AlternativeParser_call (self : AlternativeParser) (value : str)
  : result (DataInt * AlternativeParser) :=
  let self := mkAlternativeParser (change self) (index self - 1) (cut self) in
  _value ← int_of_str value;
  if Z.land _value 1 =? 0 then Ok (int _value, self)
  else Ok (mkDataInt _value (Some (change self, index self, cut self)), self).

(** The [factory] of a line: [int], or an [AlternativeParser]. *)
Inductive Factory :=
| PlainInt
| Alternative (parser : AlternativeParser).

Definition factory_call (factory : Factory) (value : str)
  : result (DataInt * Factory) :=
  match factory with
  | PlainInt => _value ← int_of_str value; Ok (int _value, PlainInt)
  | Alternative parser =>
      '(v, parser') ← AlternativeParser_call parser value;
      Ok (v, Alternative parser')
  end.

(** Lines 153-155: the list comprehension, unzipped. *)
Fixpoint tags_values (factory : Factory) (tokens : list (str * str))
  : result (list str * list DataInt) :=
  match tokens with
  | [] => Ok ([], [])
  | (i, string) :: rest =>
      '(v, factory') ← factory_call factory
                         (match i with [] => lit "0" | _ => i end);
      '(tags, values) ← tags_values factory' rest;
      Ok (string :: tags, v :: values)
  end.

(** [max(values)], as a number. *)
Definition max_val (values : list DataInt) : result Z :=
  match values with
  | [] => Raise ValueError
  | v :: rest => Ok (fold_left Z.max (map val rest) (val v))
  end.

(** Lines 163-164: [while not values[start]: start += 1], started at
    [start] with [values] from that index on. *)
Fixpoint chop_start (values : list DataInt) (start : nat) : result nat :=
  match values with
  | [] => Raise IndexError
  | v :: rest => if val v =? 0 then chop_start rest (S start) else Ok start
  end.

(** Lines 165-166: [while not values[end - 1]: end -= 1]; the loop is
    entered with [end = len(values)], written [n - len(values)] for the
    counter [n] that starts at [2 * len(values)]: an index below
    [-len(values)] is out of range. *)
Fixpoint chop_end (values : list DataInt) (n : nat) : result Z :=
  let end_ := Z.of_nat n - Z.of_nat (length values) in
  match n with
  | O => Raise IndexError
  | S n' =>
      v ← getitem values (end_ - 1);
      if val v =? 0 then chop_end values n' else Ok end_
  end.

Definition skipped_prefixes : list str :=
  [lit "%"; lit "#"; lit "LEFTHYPHENMIN"; lit "RIGHTHYPHENMIN";
   lit "COMPOUNDLEFTHYPHENMIN"; lit "COMPOUNDRIGHTHYPHENMIN"].

(** Line 137: the lines that carry no pattern. *)
Definition skipped (pattern : str) : bool :=
  match pattern with
  | [] => true
  | _ => existsb (startswith pattern) skipped_prefixes
  end.

(** Lines 147-155: the pattern text split from its alternative, and the
    tags and values of the pattern text. *)
Definition line_tags_values (pattern : str)
  : result (list str * list DataInt) :=
  '(pattern, factory) ←
    (if bool_decide ("/"%char ∈ pattern) && bool_decide ("="%char ∈ pattern)
     then match split1 "/" pattern with
          | [pattern'; alternative] =>
              parser ← AlternativeParser_init pattern' alternative;
              Ok (pattern', Alternative parser)
          | _ => Raise ValueError
          end
     else Ok (pattern, PlainInt));
  match parse pattern with
  | [] => Raise ValueError
  | tokens => tags_values factory tokens
  end.

(** Lines 157-169: what is stored for the tags and values of a line. *)
Definition store (pats : gmap str Pattern) (tags : list str)
    (values : list DataInt) : result (gmap str Pattern) :=
  m ← max_val values;
  if m =? 0 then Ok pats
  else
    start ← chop_start values 0;
    end_ ← chop_end values (2 * length values);
    Ok (<[concat tags := (start, slice values (Z.of_nat start) end_)]> pats).

(** Lines 137-169: the body of the loop, for a decoded and stripped line. *)
Definition process_line (pats : gmap str Pattern) (pattern : str)
  : result (gmap str Pattern) :=
  if skipped pattern then Ok pats
  else
    '(tags, values) ← line_tags_values (parse_hex pattern);
    store pats tags values.

Section Parser.
Context `{Runtime}.

(** [pattern.decode(charset)] *)
Definition decode (charset : str) (line : bytes) : result str :=
  match codec charset with
  | None => Raise LookupError
  | Some dec =>
      match dec line with
      | None => Raise UnicodeDecodeError
      | Some s => Ok s
      end
  end.

(** Lines 135-169: the loop over the lines after the first. *)
Fixpoint read_patterns (charset : str) (stream : list bytes)
    (pats : gmap str Pattern) : result (gmap str Pattern) :=
  match stream with
  | [] => Ok pats
  | line :: rest =>
      pattern ← decode charset line;
      pats' ← process_line pats (strip str_isspace pattern);
      read_patterns charset rest pats'
  end.

(** Line 172: [max(len(key) for key in self.patterns)] *)
Definition max_key_length (pats : gmap str Pattern) : result nat :=
  match map_to_list pats with
  | [] => Raise ValueError
  | keys => Ok (max_list (map (fun kv => length (fst kv)) keys))
  end.

(** [stream.readline()]: the first line, empty at the end of the file. *)
Definition readline (stream : list bytes) : bytes :=
  match stream with
  | [] => []
  | line :: _ => line
  end.

(** Lines 132-134: the charset the first line declares. *)
Definition declared_charset (stream : list bytes) : result str :=
  charset ← decode_ascii (strip bytes_isspace (readline stream));
  Ok (if decide (str_lower charset = lit "microsoft-cp1251")
      then lit "cp1251" else charset).

(** [HyphDict.__init__] on the content of the opened file. *)
Definition HyphDict_init (content : bytes) : result HyphDict :=
  let stream := readlines content in
  charset ← declared_charset stream;
  pats ← read_patterns charset (tail stream) ∅;
  mlen ← max_key_length pats;
  Ok (mkHyphDict pats ∅ mlen).

End Parser.

(** ** Construction of a [Pyphen] instance *)

Section Construction.
Context `{Runtime}.

(** Lines 67-73: the loop of [language_fallback], on the parts in
    reverse order ([parts.pop()] drops the head of it). *)
Fixpoint fallback_loop (reversed_parts : list str) : result str :=
  match reversed_parts with
  | [] => Raise KeyError
  | _ :: rest =>
      let language := join (lit "_") (rev reversed_parts) in
      if decide (is_Some (LANGUAGES !! language)) then Ok language
      else fallback_loop rest
  end.

(** [language_fallback] *)
Definition language_fallback (language : str) : result str :=
  fallback_loop (rev (split "_" (replace "-" (lit "_") language))).

(** Truth value of an optional string argument. *)
Definition truthy (s : option str) : bool :=
  match s with
  | Some (_ :: _) => true
  | _ => false
  end.

(** [HyphDict(filename)]: the file is opened and parsed, and the new
    object is put on the heap.  [open] raises [ValueError] for a name
    with a NUL character, under which there is no file, and [OSError]
    for another name that it cannot open. *)
Definition HyphDict_new (filename : str) : M loc :=
  fun w =>
    match files w filename with
    | None =>
        (Raise (if bool_decide ("000"%char ∈ filename) then ValueError
                else OSError), w)
    | Some content =>
        match HyphDict_init content with
        | Raise e => (Raise e, w)
        | Ok d =>
            (Ok (length (heap w)),
             mkWorld (files w) (hdcache w) (heap w ++ [d]))
        end
    end.

(** Lines 241-244 for a truthy [filename]. *)
Definition attach (filename : str) (cache_ : bool) : M loc :=
  fun w =>
    let '(r, w) :=
      if negb cache_ || bool_decide (hdcache w !! filename = None)
      then match HyphDict_new filename w with
           | (Raise e, w') => (Raise e, w')
           | (Ok l, w') =>
               (Ok (), mkWorld (files w') (<[filename := l]> (hdcache w'))
                         (heap w'))
           end
      else (Ok (), w) in
    match r with
    | Raise e => (Raise e, w)
    | Ok _ =>
        match hdcache w !! filename with
        | Some l => (Ok l, w)
        | None => (Raise KeyError, w)
        end
    end.

(** [Pyphen.__init__] *)
Definition Pyphen_init (filename lang : option str) (left_ right_ : Z)
    (cache_ : bool) : M Pyphen :=
  fun w =>
    let filename_ : result (option str) :=
      if negb (truthy filename) && truthy lang
      then language ← language_fallback (default [] lang);
           match LANGUAGES !! language with
           | Some path => Ok (Some path)
           | None => Raise KeyError
           end
      else Ok filename in
    match filename_ with
    | Raise e => (Raise e, w)
    | Ok filename =>
        match filename with
        | Some (c :: name) =>
            match attach (c :: name) cache_ w with
            | (Raise e, w') => (Raise e, w')
            | (Ok l, w') => (Ok (mkPyphen left_ right_ (Some l)), w')
            end
        | _ => (Ok (mkPyphen left_ right_ None), w)
        end
    end.

End Construction.

(** ** A runtime for words and dictionaries written in ASCII *)

Module AsciiRuntime.

Definition lower_char (c : ascii) : ascii :=
  let n := nat_of_ascii c in
  if ((65 <=? n) && (n <=? 90))%nat then ascii_of_nat (n + 32) else c.

Definition upper_char (c : ascii) : ascii :=
  let n := nat_of_ascii c in
  if ((97 <=? n) && (n <=? 122))%nat then ascii_of_nat (n - 32) else c.

Definition is_lower (c : ascii) : bool :=
  let n := nat_of_ascii c in ((97 <=? n) && (n <=? 122))%nat.

Definition is_upper (c : ascii) : bool :=
  let n := nat_of_ascii c in ((65 <=? n) && (n <=? 90))%nat.

(** [str.isupper]: some cased character, and none in lower case. *)
Definition isupper (s : str) : bool :=
  existsb is_upper s && negb (existsb is_lower s).

(** The only codec is [ascii]. *)
Definition ascii_codec (name : str) : option (bytes → option str) :=
  if decide (map lower_char name = lit "ascii")
  then Some (fun b => match decode_ascii b with
                      | Ok s => Some s
                      | Raise _ => None
                      end)
  else None.

Definition runtime (languages : gmap str str) : Runtime := {|
  str_lower := map lower_char;
  str_upper := map upper_char;
  str_isupper := isupper;
  codec := ascii_codec;
  LANGUAGES := languages;
|}.

(** The bytes of a text: lines, each closed by a newline. *)
Definition file (lines : list string) : bytes :=
  flat_map (fun l => String.list_byte_of_string l ++ [x0a]) lines.

End AsciiRuntime.

(** ** Well-formed objects

    The word cache of a [HyphDict] is filled by [HyphDict.positions]
    only: each entry is what the position finder computes for its key. *)

Definition cache_ok (d : HyphDict) : Prop :=
  map_Forall
    (fun word pts => pts = find_positions (patterns d) (maxlen d) word)
    (cache d).

Definition world_ok (w : World) : Prop := Forall cache_ok (heap w).

(** Positions in strictly ascending order. *)
Definition ascending (pts : list DataInt) : Prop :=
  StronglySorted (fun a b => val a < val b) pts.

(** A plain integer, and a table without nonstandard entries. *)
Definition plain (v : DataInt) : Prop := data v = None.

Definition plain_table (pats : gmap str Pattern) : Prop :=
  map_Forall (fun _ pattern => Forall plain (snd pattern)) pats.

(** Positions in strictly descending order. *)
Definition descending (pts : list DataInt) : Prop :=
  StronglySorted (fun a b => val b < val a) pts.

(** Lines 273-274: the pair yielded for a plain position. *)
Definition plain_split (word : str) (p : DataInt) : str * str :=
  (slice_to word (val p), slice_from word (val p)).

(** ** The word with a hyphen at given indices

    [hyphenate_at hyphen ps i word] walks [word], whose first character
    has index [i] in the whole word, and writes [hyphen] before each
    character whose index is in [ps], and at the end if the index after
    the last character is. *)
Fixpoint hyphenate_at (hyphen : str) (ps : list Z) (i : Z) (word : str)
  : str :=
  match word with
  | [] => if decide (i ∈ ps) then hyphen else []
  | c :: rest =>
      (if decide (i ∈ ps) then hyphen else [])
      ++ c :: hyphenate_at hyphen ps (i + 1) rest
  end.

(** [hyphenate_at] on the list of pieces that [inserted] edits. *)
Fixpoint hyphenate_list (hyphen : str) (ps : list Z) (i : Z) (word : str)
  : list str :=
  match word with
  | [] => if decide (i ∈ ps) then [hyphen] else []
  | c :: rest =>
      (if decide (i ∈ ps) then [hyphen] else [])
      ++ [c] :: hyphenate_list hyphen ps (i + 1) rest
  end.

(** A head that does not fit the width left by the hyphen. *)
Definition too_long (width : Z) (item : str * str) : Prop :=
  width < Z.of_nat (length item.1).

(** ** What the parser stores

    The zero weights, the count of those that lead a sequence, and the
    shape of a stored entry: not all zero, no zero at either end. *)

Definition is_zero (v : DataInt) : bool := val v =? 0.

Fixpoint leading_zeros (values : list DataInt) : nat :=
  match values with
  | v :: rest => if is_zero v then S (leading_zeros rest) else O
  | [] => O
  end.

Definition all_zero (values : list DataInt) : Prop :=
  Forall (fun v => val v = 0) values.

Definition trimmed (pattern : Pattern) : Prop :=
  ¬ all_zero pattern.2 ∧
  (∃ v, head pattern.2 = Some v ∧ val v ≠ 0) ∧
  (∃ v, last pattern.2 = Some v ∧ val v ≠ 0).

Definition digit_token (token : str * str) : Prop :=
  token.1 = [] ∨ ∃ c d, token.1 = [c] ∧ digit c = Some d.

Definition is_letter (c : ascii) : Prop := digit c = None.

Definition table_trimmed (pats : gmap str Pattern) : Prop :=
  map_Forall (fun _ pattern => trimmed pattern) pats.

(** A call that raises. *)
Definition failed {A} (r : result A) : Prop := ∃ e, r = Raise e.

(** The references of [hdcache] point into the heap. *)
Definition refs_ok (w : World) : Prop :=
  map_Forall (fun _ l => is_Some (heap w !! l)) (hdcache w).

(** The reference of an instance points into the heap. *)
Definition instance_ok (self : Pyphen) (w : World) : Prop :=
  ∀ l, hd self = Some l → is_Some (heap w !! l).

(** The world when the module has just been imported. *)
Definition world_empty (fs : str → option bytes) : World := mkWorld fs ∅ [].

(** ** Further notions for the properties

    No key of a table is longer than [n]. *)
Definition keys_within (pats : gmap str Pattern) (n : nat) : Prop :=
  ∀ key pattern, pats !! key = Some pattern → (length key ≤ n)%nat.

(** Line 147: the lines that carry a nonstandard alternative. *)
Definition has_alternative (pattern : str) : bool :=
  bool_decide ("/"%char ∈ pattern) && bool_decide ("="%char ∈ pattern).

(** The weights of a table are digits. *)
Definition digit_weights (pats : gmap str Pattern) : Prop :=
  map_Forall (fun _ pattern => Forall (fun v => 0 ≤ val v ≤ 9) pattern.2)
    pats.

(** The text of a token. *)
Definition token_text (token : str * str) : str := token.1 ++ token.2.

(** Lines 66-68: the parts of a language tag, and the tag cut after its
    first [k] parts. *)
Definition language_parts (language : str) : list str :=
  split "_" (replace "-" (lit "_") language).

Definition truncation (language : str) (k : nat) : str :=
  join (lit "_") (take k (language_parts language)).

(** * The [LANGUAGES] table (lines 46-54) *)

(** [s.endswith(suffix)] *)
Definition endswith (s suffix : str) : bool :=
  startswith (rev s) (rev suffix).

(** [a <= b] on [str]: the code points are compared from the left. *)
Fixpoint str_le (a b : str) : bool :=
  match a, b with
  | [], _ => true
  | _ :: _, [] => false
  | x :: a', y :: b' =>
      if (nat_of_ascii x <? nat_of_ascii y)%nat then true
      else if (nat_of_ascii y <? nat_of_ascii x)%nat then false
      else str_le a' b'
  end.

(** [sorted(names)] *)
Definition sorted (names : list str) : list str :=
  merge_sort (λ a b, Is_true (str_le a b)) names.

(** [filename[5:-4]] and [name.split('_')[0]]; [split] never returns
    the empty list. *)
Definition language_name (filename : str) : str := slice filename 5 (-4).

Definition short_name (name : str) : str := List.hd [] (split "_" name).

(** The body of the loop, for one file name.  [join_root] stands for
    [os.path.join(dictionaries_root, ·)]. *)
Definition register (join_root : str → str)
    (languages : gmap str str) (filename : str) : gmap str str :=
  if endswith filename (lit ".dic") then
    let name := language_name filename in
    let full_path := join_root filename in
    let languages := <[name := full_path]> languages in
    let short_name := short_name name in
    if decide (is_Some (languages !! short_name)) then languages
    else <[short_name := full_path]> languages
  else languages.

(** The table built from [listing], the result of
    [os.listdir(dictionaries_root)]. *)
Definition build_LANGUAGES (join_root : str → str) (listing : list str)
  : gmap str str :=
  fold_left (register join_root) (sorted listing) ∅.

(** The dictionary files named [key], and those whose name starts with
    the part [key]. *)
Definition named (key filename : str) : Prop :=
  endswith filename (lit ".dic") = true ∧ language_name filename = key.

Definition regional (key filename : str) : Prop :=
  endswith filename (lit ".dic") = true
  ∧ short_name (language_name filename) = key.

#[global] Instance named_dec key filename : Decision (named key filename).
Proof. unfold named. apply _. Defined.

#[global] Instance regional_dec key filename :
  Decision (regional key filename).
Proof. unfold regional. apply _. Defined.

(** A key of the table, of at most [mlen] characters, stands in the
    pointed word at index [fst m], before its last character, and its
    entry is [snd m]. *)
Definition occurs (pats : gmap str Pattern) (mlen : nat) (pointed_word : str)
    (m : Match) : Prop :=
  ∃ key, pats !! key = Some (snd m)
         ∧ (1 ≤ length key ≤ mlen)%nat
         ∧ (fst m + 1 < length pointed_word)%nat
         ∧ (fst m + length key ≤ length pointed_word)%nat
         ∧ take (length key) (drop (fst m) pointed_word) = key.




(** ** Tables and files used as concrete inputs *)

Module Inputs.
Import AsciiRuntime.

(** Two patterns that give the same weight to one position, one of them
    with a nonstandard change. *)
Definition tie_patterns : gmap str Pattern :=
  <[lit "ab" := (1%nat, [int 1])]>
    (<[lit "bc" := (0%nat, [mkDataInt 1 (Some (lit "b=b", 0, 1))])]> ∅).

Definition rt : Runtime := runtime ∅.

(** A small dictionary; [x1y2z3] breaks a word after [x] and after [z]. *)
Definition dic : bytes :=
  file ["ascii"; "% a comment"; "a1b"; "x1y2z3"; ".a2"; "e1e"]%string.

Definition dic_name : str := lit "hyph_xx.dic".

Definition world0 : World :=
  world_empty (fun name => if decide (name = dic_name) then Some dic else None).

(** A dictionary object with these patterns and an empty word cache. *)
Definition table0 : HyphDict := mkHyphDict tie_patterns ∅ 2.

(** The table of [dic]. *)
Definition dic_patterns : gmap str Pattern :=
  <[lit "ab" := (1%nat, [int 1])]>
    (<[lit "xyz" := (1%nat, [int 1; int 2; int 3])]>
       (<[lit ".a" := (2%nat, [int 2])]>
          (<[lit "ee" := (1%nat, [int 1])]> ∅))).

Definition dic_table : HyphDict := mkHyphDict dic_patterns ∅ 3.

(** An instance created for the dictionary with the default margins, and
    the world the creation leaves. *)
Definition created : result Pyphen * World :=
  @Pyphen_init rt (Some dic_name) None 2 2 true world0.

Definition hyphenator : Pyphen := mkPyphen 2 2 (Some 0%nat).

Definition world1 : World :=
  mkWorld (files world0) (<[dic_name := 0%nat]> ∅) [dic_table].

(** A world whose only dictionary object is [table0], and an instance
    that uses it with margins of one character. *)
Definition tie_world : World := mkWorld (fun _ => None) ∅ [table0].

Definition tie_hyphenator : Pyphen := mkPyphen 1 1 (Some 0%nat).








End Inputs.
Import Inputs.

(** * Properties *)

(** ** The overlay of the position finder *)

Lemma val_py_max a b : val (py_max a b) = Z.max (val a) (val b).
Proof. unfold py_max. destruct (Z.ltb_spec (val a) (val b)); lia. Qed.

Lemma overlay_lookup i pattern (refs : list DataInt) k :
  overlay i pattern refs !! k = combine (i, pattern) k <$> refs !! k.
Proof.
  destruct pattern as [offset values]. unfold overlay, combine, weight_at.
  set (lo := (i + offset)%nat).
  replace (lo + length values - lo)%nat with (length values) by lia.
  destruct (decide (lo ≤ k)%nat) as [Hk|Hk].
  - destruct (decide (length refs ≤ lo)%nat) as [Hn|Hn].
    + rewrite (take_ge refs lo) by done. rewrite (drop_ge refs lo) by done.
      rewrite (drop_ge refs (lo + length values)) by lia.
      rewrite take_nil, zip_with_nil_r, !app_nil_r.
      rewrite (lookup_ge_None_2 refs k) by lia. done.
    + rewrite lookup_app_r; rewrite length_take_le by lia; [|done].
      rewrite lookup_app, lookup_zip_with, lookup_take, lookup_drop.
      replace (lo + (k - lo))%nat with k by lia.
      rewrite length_zip_with, length_take, length_drop.
      destruct (values !! (k - lo)%nat) as [v|] eqn:Hv; simpl.
      * apply lookup_lt_Some in Hv. case_decide; [|lia].
        destruct (refs !! k) as [r|] eqn:Hr; simpl; [done|].
        apply lookup_ge_None_1 in Hr.
        rewrite lookup_drop. apply lookup_ge_None_2. lia.
      * apply lookup_ge_None_1 in Hv. rewrite lookup_drop.
        destruct (decide (length values ≤ length refs - lo)%nat).
        -- rewrite option_fmap_id. f_equal. lia.
        -- rewrite option_fmap_id.
           rewrite (lookup_ge_None_2 refs k) by lia.
           apply lookup_ge_None_2. lia.
  - destruct (refs !! k) as [r|] eqn:Hr; simpl.
    + apply lookup_app_l_Some. rewrite lookup_take_lt by lia. done.
    + apply lookup_ge_None_1 in Hr. apply lookup_ge_None_2.
      rewrite !length_app, length_take, length_zip_with, length_take,
        !length_drop. lia.
Qed.

Lemma overlay_length i pattern (refs : list DataInt) :
  length (overlay i pattern refs) = length refs.
Proof.
  destruct pattern as [offset values]. unfold overlay.
  rewrite !length_app, length_take, length_zip_with, length_take,
    !length_drop. lia.
Qed.

Lemma overlay_all_length ms (refs : list DataInt) :
  length (overlay_all ms refs) = length refs.
Proof.
  revert refs. induction ms as [|m ms IH]; intros refs; simpl; [done|].
  unfold overlay_all in *. simpl. rewrite IH. apply overlay_length.
Qed.

Lemma val_combine m k r :
  val (combine m k r)
  = match weight_at m k with Some v => Z.max (val v) (val r) | None => val r end.
Proof. unfold combine. destruct (weight_at m k); [apply val_py_max|done]. Qed.

Lemma overlay_vals_congr m (r1 r2 : list DataInt) :
  map val r1 = map val r2 →
  map val (overlay (fst m) (snd m) r1) = map val (overlay (fst m) (snd m) r2).
Proof.
  intros Heq. apply list_eq. intros k.
  rewrite !list_lookup_fmap, !overlay_lookup.
  assert (Hk : val <$> r1 !! k = val <$> r2 !! k)
    by (rewrite <- !list_lookup_fmap; by f_equal).
  destruct (r1 !! k) as [a|], (r2 !! k) as [b|]; simplify_eq/=; [|done].
  destruct m as [i p]; simpl. rewrite !val_combine.
  destruct (weight_at (i, p) k); congruence.
Qed.

Lemma overlay_vals_comm m1 m2 (refs : list DataInt) :
  map val (overlay (fst m1) (snd m1) (overlay (fst m2) (snd m2) refs))
  = map val (overlay (fst m2) (snd m2) (overlay (fst m1) (snd m1) refs)).
Proof.
  apply list_eq. intros k.
  rewrite !list_lookup_fmap, !overlay_lookup.
  destruct (refs !! k) as [r|]; simpl; [|done].
  destruct m1 as [i1 p1], m2 as [i2 p2]; simpl. rewrite !val_combine.
  destruct (weight_at (i1, p1) k), (weight_at (i2, p2) k); f_equal; lia.
Qed.

Lemma overlay_all_vals_congr ms (r1 r2 : list DataInt) :
  map val r1 = map val r2 →
  map val (overlay_all ms r1) = map val (overlay_all ms r2).
Proof.
  revert r1 r2. induction ms as [|m ms IH]; intros r1 r2 Heq; [done|].
  apply IH. by apply overlay_vals_congr.
Qed.

Lemma overlay_all_vals_perm ms ms' (r1 r2 : list DataInt) :
  Permutation ms ms' → map val r1 = map val r2 →
  map val (overlay_all ms r1) = map val (overlay_all ms' r2).
Proof.
  intros Hp. revert r1 r2.
  induction Hp as [|m ms ms' _ IH|m1 m2 ms|ms1 ms2 ms3 _ IH1 _ IH2];
    intros r1 r2 Heq.
  - done.
  - apply IH. by apply overlay_vals_congr.
  - change (map val (overlay_all ms
              (overlay (fst m1) (snd m1) (overlay (fst m2) (snd m2) r1)))
            = map val (overlay_all ms
              (overlay (fst m2) (snd m2) (overlay (fst m1) (snd m1) r2)))).
    apply overlay_all_vals_congr. rewrite overlay_vals_comm.
    by do 2 apply overlay_vals_congr.
  - rewrite (IH1 r1 r2 Heq). by apply IH2.
Qed.


Lemma overlay_all_app ms1 ms2 (refs : list DataInt) :
  overlay_all (ms1 ++ ms2) refs = overlay_all ms2 (overlay_all ms1 refs).
Proof. apply fold_left_app. Qed.

Lemma scan_i_matches pats mlen pw refs i :
  scan_i pats mlen pw refs i = overlay_all (matches_i pats mlen pw i) refs.
Proof.
  unfold scan_i, matches_i.
  generalize (range (i + 1) (Nat.min (i + mlen) (length pw) + 1)).
  intros js. revert refs. induction js as [|j js IH]; intros refs; [done|].
  simpl. rewrite IH. unfold scan_j.
  by destruct (pats !! take (j - i) (drop i pw)).
Qed.

Lemma scan_matches pats mlen pw :
  scan pats mlen pw
  = overlay_all (matches pats mlen pw) (replicate (length pw + 1) (int 0)).
Proof.
  unfold scan, matches.
  generalize (replicate (length pw + 1) (int 0)).
  generalize (range 0 (length pw - 1)).
  intros is_. induction is_ as [|i is_ IH]; intros refs; [done|].
  simpl. rewrite overlay_all_app, IH. by rewrite scan_i_matches.
Qed.

Lemma overlay_all_max ms (refs : list DataInt) k r :
  overlay_all ms refs !! k = Some r →
  ∃ r0, refs !! k = Some r0 ∧ val r0 ≤ val r ∧
    (∀ m v, m ∈ ms → weight_at m k = Some v → val v ≤ val r) ∧
    (r = r0 ∨ ∃ m, m ∈ ms ∧ weight_at m k = Some r).
Proof.
  revert refs. induction ms as [|m ms IH]; intros refs Hr.
  - exists r. split_and!; [done|lia| |by left].
    intros m v Hm. by apply elem_of_nil in Hm.
  - change (overlay_all ms (overlay (fst m) (snd m) refs) !! k = Some r) in Hr.
    destruct (IH _ Hr) as (r1 & Hr1 & Hle & Hall & Hex).
    rewrite overlay_lookup in Hr1.
    destruct (refs !! k) as [r0|] eqn:Hr0; simplify_eq/=.
    replace (fst m, snd m) with m in * by (by destruct m).
    pose proof (val_combine m k r0) as Hc.
    exists r0. split_and!; [done| | |].
    + destruct (weight_at m k); lia.
    + intros m' v [->|Hm']%elem_of_cons Hv; [|by eapply Hall].
      rewrite Hv in Hc. lia.
    + destruct Hex as [->|(m' & Hm' & Hw)].
      * unfold combine. destruct (weight_at m k) as [v|] eqn:Hv; [|by left].
        unfold py_max. case_match; [by left|].
        right. exists m. split; [apply elem_of_cons; by left|done].
      * right. exists m'. split; [apply elem_of_cons; by right|done].
Qed.

Lemma val_DataInt_of_reference z r : val (DataInt_of_reference z r) = z.
Proof. unfold DataInt_of_reference. by case_match. Qed.

Lemma points_from_vals i (r1 r2 : list DataInt) :
  map val r1 = map val r2 →
  map val (points_from i r1) = map val (points_from i r2).
Proof.
  revert i r2. induction r1 as [|a r1 IH]; intros i [|b r2] Heq;
    try discriminate; [done|].
  injection Heq as Hab Hrest. simpl. rewrite Hab.
  case_match; simpl; rewrite ?val_DataInt_of_reference;
    by erewrite IH.
Qed.

Lemma overlay_all_cons m ms (refs : list DataInt) :
  overlay_all (m :: ms) refs = overlay_all ms (overlay (fst m) (snd m) refs).
Proof. done. Qed.

Lemma overlay_cell m (refs : list DataInt) k :
  overlay (fst m) (snd m) refs !! k = combine m k <$> refs !! k.
Proof. destruct m as [i pattern]. apply overlay_lookup. Qed.

Lemma overlay_all_keeps ms (refs : list DataInt) k v :
  refs !! k = Some v →
  (∀ m' v', m' ∈ ms → weight_at m' k = Some v' → val v' < val v) →
  overlay_all ms refs !! k = Some v.
Proof.
  revert refs. induction ms as [|m ms IH]; intros refs Hv Hless; [done|].
  rewrite overlay_all_cons. apply IH.
  - rewrite overlay_cell, Hv. simpl. f_equal. unfold combine.
    destruct (weight_at m k) as [v'|] eqn:Hw; [|done].
    assert (val v' < val v)
      by (apply (Hless m); [apply elem_of_cons; by left|done]).
    unfold py_max. destruct (Z.ltb_spec (val v') (val v)); [done|lia].
  - intros m' v' Hm'. apply Hless. apply elem_of_cons. by right.
Qed.

Lemma overlay_all_last_max ms1 m ms2 (refs : list DataInt) k v r0 :
  refs !! k = Some r0 → val r0 ≤ val v →
  weight_at m k = Some v →
  (∀ m' v', m' ∈ ms1 → weight_at m' k = Some v' → val v' ≤ val v) →
  (∀ m' v', m' ∈ ms2 → weight_at m' k = Some v' → val v' < val v) →
  overlay_all (ms1 ++ m :: ms2) refs !! k = Some v.
Proof.
  intros Hr0 Hle Hw Hbefore Hafter.
  rewrite overlay_all_app, overlay_all_cons.
  apply overlay_all_keeps; [|done].
  destruct (overlay_all ms1 refs !! k) as [r1|] eqn:Hr1.
  2:{ apply lookup_ge_None_1 in Hr1. rewrite overlay_all_length in Hr1.
      apply lookup_lt_Some in Hr0. lia. }
  rewrite overlay_cell, Hr1. simpl. f_equal. unfold combine. rewrite Hw.
  destruct (overlay_all_max _ _ _ _ Hr1) as (r0' & Hr0' & _ & _ & Hex).
  rewrite Hr0 in Hr0'. injection Hr0' as <-.
  assert (val r1 ≤ val v).
  { destruct Hex as [->|(m' & Hm' & Hw')]; [done|by apply (Hbefore m')]. }
  unfold py_max. destruct (Z.ltb_spec (val v) (val r1)); [lia|done].
Qed.

Lemma elem_of_points_from_data i (refs : list DataInt) (p : DataInt) :
  p ∈ points_from i refs ↔
  ∃ k r, refs !! k = Some r ∧ val r mod 2 = 1
         ∧ p = mkDataInt (Z.of_nat (i + k) - 1) (data r).
Proof.
  assert (Hodd : ∀ r z, val r mod 2 ≠ 0 →
            val r mod 2 = 1
            ∧ DataInt_of_reference z r = mkDataInt z (data r)).
  { intros r z Hr. pose proof (Z.mod_pos_bound (val r) 2).
    split; [lia|]. unfold DataInt_of_reference.
    destruct (Z.eqb_spec (val r) 0) as [Hz|Hz]; [by rewrite Hz in Hr|done]. }
  revert i. induction refs as [|r0 refs IH]; intros i; cbn [points_from].
  - split; [intros Hp; by apply elem_of_nil in Hp|].
    by intros (k & r & Hr & _).
  - destruct (Z.eqb_spec (val r0 mod 2) 0) as [Heven|Hr0].
    + rewrite IH. split.
      * intros (k & r & Hr & Hr1 & ->). exists (S k), r.
        split_and!; [done|done|f_equal; lia].
      * intros ([|k] & r & Hr & Hr1 & ->); simplify_eq/=; [lia|].
        exists k, r. split_and!; [done|done|f_equal; lia].
    + destruct (Hodd r0 (Z.of_nat i - 1) Hr0) as [Hr1 ->].
      rewrite elem_of_cons, IH. split.
      * intros [->|(k & r & Hr & Hr2 & ->)].
        -- exists 0%nat, r0. split_and!; [done|done|f_equal; lia].
        -- exists (S k), r. split_and!; [done|done|f_equal; lia].
      * intros ([|k] & r & Hr & Hr2 & ->); simplify_eq/=.
        -- left. f_equal. lia.
        -- right. exists k, r. split_and!; [done|done|f_equal; lia].
Qed.

(** C1 (amended).  The scan of a word is the overlay of its matches in
    scan order.  In whatever order the matches are applied, every
    accumulator entry ends as a weight of greatest value among those the
    matches give to its index (the initial 0 when none is greater), so
    the values of the accumulator and the indices of the break positions
    do not depend on the order.  The entry that survives is the weight
    of the match applied last among those that attain the maximum, and
    a break position carries the data of the entry that survived at its
    index; so the change of a break position follows the order. *)
Theorem overlay_elementwise_max (pats : gmap str Pattern) (mlen : nat)
    (word : str) :
  let pw := pointed word in
  let ms := matches pats mlen pw in
  let refs0 := replicate (length pw + 1) (int 0) in
  scan pats mlen pw = overlay_all ms refs0 ∧
  (∀ ms', Permutation ms ms' →
    (∀ k r, overlay_all ms' refs0 !! k = Some r →
       0 ≤ val r ∧
       (∀ m v, m ∈ ms → weight_at m k = Some v → val v ≤ val r) ∧
       (r = int 0 ∨ ∃ m, m ∈ ms ∧ weight_at m k = Some r)) ∧
    map val (overlay_all ms' refs0) = map val (scan pats mlen pw) ∧
    map val (points (overlay_all ms' refs0))
    = map val (find_positions pats mlen word)) ∧
  (∀ ms1 m ms2 k v,
     (k ≤ length pw)%nat → weight_at m k = Some v → 0 ≤ val v →
     (∀ m' v', m' ∈ ms1 → weight_at m' k = Some v' → val v' ≤ val v) →
     (∀ m' v', m' ∈ ms2 → weight_at m' k = Some v' → val v' < val v) →
     overlay_all (ms1 ++ m :: ms2) refs0 !! k = Some v) ∧
  (∀ ms' p,
     p ∈ points (overlay_all ms' refs0) ↔
     ∃ k r, overlay_all ms' refs0 !! k = Some r ∧ val r mod 2 = 1
            ∧ p = mkDataInt (Z.of_nat k - 1) (data r)) ∧
  (∀ p,
     p ∈ find_positions pats mlen word ↔
     ∃ k r, overlay_all ms refs0 !! k = Some r ∧ val r mod 2 = 1
            ∧ p = mkDataInt (Z.of_nat k - 1) (data r)).
Proof.
  intros pw ms refs0. split; [apply scan_matches|]. split_and!.
  - intros ms' Hp. split_and!.
    + intros k r Hr.
      destruct (overlay_all_max _ _ _ _ Hr) as (r0 & Hr0 & Hle & Hall & Hex).
      apply lookup_replicate_1 in Hr0 as [-> _]. split_and!; [done| |].
      * intros m v Hm. apply Hall. by rewrite <- Hp.
      * destruct Hex as [->|(m & Hm & Hw)]; [by left|right].
        exists m. split; [by rewrite Hp|done].
    + rewrite scan_matches. symmetry. by apply overlay_all_vals_perm.
    + unfold find_positions, points. apply points_from_vals.
      rewrite scan_matches. symmetry. by apply overlay_all_vals_perm.
  - intros ms1 m ms2 k v Hk Hw Hv Hbefore Hafter.
    apply (overlay_all_last_max ms1 m ms2 refs0 k v (int 0));
      [|done..].
    apply lookup_replicate_2. lia.
  - intros ms' p. unfold points. by rewrite elem_of_points_from_data.
  - intros p. unfold find_positions, points.
    by rewrite scan_matches, elem_of_points_from_data.
Qed.

Lemma overlay_elementwise_max_witness :
  let ms := matches tie_patterns 2 (pointed (lit "abc")) in
  let refs0 := replicate (length (pointed (lit "abc")) + 1) (int 0) in
  Permutation ms (rev ms) ∧
  map val (points (overlay_all (rev ms) refs0))
  = map val (find_positions tie_patterns 2 (lit "abc")) ∧
  overlay_all ms refs0 !! 2%nat = Some (mkDataInt 1 (Some (lit "b=b", 0, 1))) ∧
  mkDataInt 1 (Some (lit "b=b", 0, 1))
  ∈ find_positions tie_patterns 2 (lit "abc").
Proof.
  intros ms refs0.
  destruct (overlay_elementwise_max tie_patterns 2 (lit "abc"))
    as (_ & Hperm & Hlast & _ & Hdata).
  assert (Hcell : overlay_all ms refs0 !! 2%nat
                  = Some (mkDataInt 1 (Some (lit "b=b", 0, 1)))).
  { assert (Hms : ms = [(1%nat, (1%nat, [int 1]))]
                       ++ (2%nat, (0%nat, [mkDataInt 1 (Some (lit "b=b", 0, 1))]))
                       :: []) by (vm_compute; reflexivity).
    rewrite Hms. apply Hlast.
    - simpl. lia.
    - reflexivity.
    - simpl. lia.
    - intros m' v' Hm'. apply list_elem_of_singleton in Hm' as ->.
      intros [= <-]. simpl. lia.
    - intros m' v' Hm'. by apply elem_of_nil in Hm'. }
  split_and!.
  - apply Permutation_rev.
  - apply (Hperm (rev ms)). apply Permutation_rev.
  - exact Hcell.
  - apply Hdata. exists 2%nat, (mkDataInt 1 (Some (lit "b=b", 0, 1))).
    split_and!; [exact Hcell|reflexivity|reflexivity].
Defined.

Lemma break_data_depends_on_scan_order :
  ∃ (pats : gmap str Pattern) (mlen : nat) (word : str) (ms' : list Match),
    Permutation (matches pats mlen (pointed word)) ms' ∧
    points (overlay_all ms' (replicate (length (pointed word) + 1) (int 0)))
    ≠ find_positions pats mlen word.
Proof.
  exists tie_patterns, 2%nat, (lit "abc"),
    (rev (matches tie_patterns 2 (pointed (lit "abc")))).
  split; [apply Permutation_rev|].
  vm_compute. discriminate.
Qed.

(** ** The word cache of [HyphDict.positions] *)

Section WordCache.
Context `{Runtime}.

Lemma HyphDict_positions_hit (d : HyphDict) (word : str) pts :
  cache d !! str_lower word = Some pts →
  HyphDict_positions d word = (pts, d).
Proof. intros Hc. unfold HyphDict_positions. by rewrite Hc. Qed.

Lemma HyphDict_positions_stored (d : HyphDict) (word : str) :
  cache (HyphDict_positions d word).2 !! str_lower word
  = Some (HyphDict_positions d word).1.
Proof.
  unfold HyphDict_positions.
  destruct (cache d !! str_lower word) as [pts|] eqn:Hc; simpl; [done|].
  apply lookup_insert_eq.
Qed.

Lemma HyphDict_positions_table (d : HyphDict) (word : str) :
  patterns (HyphDict_positions d word).2 = patterns d
  ∧ maxlen (HyphDict_positions d word).2 = maxlen d.
Proof.
  unfold HyphDict_positions. by destruct (cache d !! str_lower word).
Qed.

Lemma HyphDict_positions_ok (d : HyphDict) (word : str) :
  cache_ok d →
  (HyphDict_positions d word).1
  = find_positions (patterns d) (maxlen d) (str_lower word)
  ∧ cache_ok (HyphDict_positions d word).2.
Proof.
  intros Hok. unfold HyphDict_positions.
  destruct (cache d !! str_lower word) as [pts|] eqn:Hc; simpl.
  - split; [|done]. by apply (Hok _ _ Hc).
  - split; [done|]. unfold cache_ok. simpl.
    by apply map_Forall_insert_2.
Qed.

(** C8.  With a word cache filled by [HyphDict.positions] alone, the
    result is the position finder's for the table and the lowercased
    word, whatever the cache holds; the call leaves the table as it was
    and the result stored under the lowercased word; a second call with
    the same word, or with any word that lowercases to the same, returns
    that stored sequence and changes nothing. *)
Theorem HyphDict_positions_pure (d : HyphDict) (word : str) :
  cache_ok d →
  ∃ pts d',
    HyphDict_positions d word = (pts, d') ∧
    pts = find_positions (patterns d) (maxlen d) (str_lower word) ∧
    patterns d' = patterns d ∧ maxlen d' = maxlen d ∧ cache_ok d' ∧
    cache d' !! str_lower word = Some pts ∧
    HyphDict_positions d' word = (pts, d') ∧
    ∀ word2, str_lower word2 = str_lower word →
      (HyphDict_positions d word2).1 = pts ∧
      HyphDict_positions d' word2 = (pts, d').
Proof.
  intros Hok.
  exists (HyphDict_positions d word).1, (HyphDict_positions d word).2.
  destruct (HyphDict_positions_ok d word Hok) as [Hpts Hok'].
  destruct (HyphDict_positions_table d word) as [Hp Hm].
  pose proof (HyphDict_positions_stored d word) as Hst.
  split_and!; try done.
  - by destruct (HyphDict_positions d word).
  - by apply HyphDict_positions_hit.
  - intros word2 Hl. split.
    + destruct (HyphDict_positions_ok d word2 Hok) as [-> _].
      by rewrite Hl, Hpts.
    + apply HyphDict_positions_hit. by rewrite Hl.
Qed.

End WordCache.

Lemma HyphDict_positions_pure_witness :
  cache_ok table0 ∧
  ∃ d', @HyphDict_positions rt table0 (lit "ABC")
        = ([mkDataInt 1 (Some (lit "b=b", 0, 1))], d')
      ∧ @HyphDict_positions rt d' (lit "aBc")
        = ([mkDataInt 1 (Some (lit "b=b", 0, 1))], d').
Proof.
  assert (Hok : cache_ok table0) by apply map_Forall_empty.
  split; [exact Hok|].
  destruct (@HyphDict_positions_pure rt table0 (lit "ABC") Hok)
    as (pts & d' & Hcall & Hpts & _ & _ & _ & _ & _ & Hsame).
  exists d'. destruct (Hsame (lit "aBc") eq_refl) as [_ Hcall2].
  rewrite Hcall, Hcall2, Hpts. split; reflexivity.
Defined.

(** ** Break positions are ascending and inside the word's wrapping *)

Lemma points_from_bounds i refs p :
  p ∈ points_from i refs →
  Z.of_nat i - 1 ≤ val p < Z.of_nat i + Z.of_nat (length refs) - 1.
Proof.
  revert i. induction refs as [|r refs IH]; intros i Hp; simpl in *.
  - by apply elem_of_nil in Hp.
  - destruct (val r mod 2 =? 0).
    + apply IH in Hp. lia.
    + apply elem_of_cons in Hp as [->|Hp].
      * rewrite val_DataInt_of_reference. lia.
      * apply IH in Hp. lia.
Qed.

Lemma points_from_ascending i refs : ascending (points_from i refs).
Proof.
  revert i. induction refs as [|r refs IH]; intros i; simpl.
  - constructor.
  - destruct (val r mod 2 =? 0); [apply IH|].
    apply StronglySorted_cons. split; [|apply IH].
    apply Forall_forall. intros p Hp%points_from_bounds.
    rewrite val_DataInt_of_reference. lia.
Qed.

Lemma ascending_filter (P : DataInt → Prop) `{!∀ x, Decision (P x)} pts :
  ascending pts → ascending (filter P pts).
Proof.
  induction 1 as [|p pts _ IH Hall]; [constructor|].
  rewrite filter_cons. case_decide; [|done].
  apply StronglySorted_cons. split; [|done].
  apply Forall_forall. intros q [_ Hq]%list_elem_of_filter.
  by eapply Forall_forall in Hall.
Qed.

Lemma find_positions_ascending pats mlen word :
  ascending (find_positions pats mlen word).
Proof. apply points_from_ascending. Qed.

Lemma scan_length pats mlen pw :
  length (scan pats mlen pw) = (length pw + 1)%nat.
Proof. rewrite scan_matches, overlay_all_length. apply length_replicate. Qed.

Lemma find_positions_bounds pats mlen word p :
  p ∈ find_positions pats mlen word →
  -1 ≤ val p ≤ Z.of_nat (length word) + 1.
Proof.
  intros Hp%points_from_bounds. rewrite scan_length in Hp.
  unfold pointed in Hp. rewrite !length_app in Hp. simpl in Hp. lia.
Qed.

Section Margins.
Context `{Runtime}.

Lemma hd_positions_ok (self : Pyphen) (word : str) (w : World) l d :
  world_ok w → hd self = Some l → heap w !! l = Some d →
  ∃ d', hd_positions self word w
        = (Ok (find_positions (patterns d) (maxlen d) (str_lower word)),
           mkWorld (files w) (hdcache w) (<[l := d']> (heap w)))
      ∧ patterns d' = patterns d ∧ maxlen d' = maxlen d
      ∧ world_ok (mkWorld (files w) (hdcache w) (<[l := d']> (heap w))).
Proof.
  intros Hw Hl Hd. unfold hd_positions. rewrite Hl, Hd.
  assert (Hok : cache_ok d).
  { unfold world_ok in Hw. rewrite Forall_lookup in Hw. by eapply Hw. }
  destruct (HyphDict_positions_ok d word Hok) as [Hpts Hok'].
  destruct (HyphDict_positions_table d word) as [Hp Hm].
  destruct (HyphDict_positions d word) as [pts d']. simpl in *.
  exists d'. rewrite Hpts. split_and!; try done.
  unfold world_ok. simpl. by apply Forall_insert.
Qed.

Lemma Pyphen_positions_kept (self : Pyphen) (word : str) (w : World) l d :
  world_ok w → hd self = Some l → heap w !! l = Some d →
  ∃ w',
    Pyphen_positions self word w
    = (Ok (filter (fun i => left self ≤ val i
                            ∧ val i ≤ Z.of_nat (length word) - right self)
             (find_positions (patterns d) (maxlen d) (str_lower word))),
       w')
    ∧ world_ok w'.
Proof.
  intros Hw Hl Hd.
  destruct (hd_positions_ok self word w l d Hw Hl Hd)
    as (d' & Hcall & _ & _ & Hw').
  unfold Pyphen_positions. rewrite Hcall. by eexists.
Qed.

Lemma margin_filter (lo hi : Z) (pts : list DataInt) :
  ascending pts →
  Forall (fun p => lo ≤ val p ∧ val p ≤ hi)
    (filter (fun i => lo ≤ val i ∧ val i ≤ hi) pts)
  ∧ (∀ p, p ∈ filter (fun i => lo ≤ val i ∧ val i ≤ hi) pts
          ↔ p ∈ pts ∧ lo ≤ val p ∧ val p ≤ hi)
  ∧ ascending (filter (fun i => lo ≤ val i ∧ val i ≤ hi) pts).
Proof.
  intros Hasc. split_and!.
  - apply Forall_forall. by intros p [Hp _]%list_elem_of_filter.
  - intros p. rewrite list_elem_of_filter. tauto.
  - by apply ascending_filter.
Qed.

(** C2.  An instance with a table returns from [Pyphen.positions] the
    positions [p] of the position finder with
    [left <= p <= len(word) - right], and only those, in ascending
    order. *)
Theorem Pyphen_positions_margin (self : Pyphen) (word : str) (w : World) l d :
  world_ok w → hd self = Some l → heap w !! l = Some d →
  ∃ pts w',
    Pyphen_positions self word w = (Ok pts, w') ∧
    Forall (fun p => left self ≤ val p
                     ∧ val p ≤ Z.of_nat (length word) - right self) pts ∧
    (∀ p, p ∈ pts ↔
          p ∈ find_positions (patterns d) (maxlen d) (str_lower word)
          ∧ left self ≤ val p
          ∧ val p ≤ Z.of_nat (length word) - right self) ∧
    ascending pts ∧
    world_ok w'.
Proof.
  intros Hw Hl Hd.
  destruct (Pyphen_positions_kept self word w l d Hw Hl Hd)
    as (w' & Hcall & Hw').
  destruct (margin_filter (left self)
              (Z.of_nat (length word) - right self)
              (find_positions (patterns d) (maxlen d) (str_lower word))
              (find_positions_ascending _ _ _)) as (Hin & Hmem & Hasc).
  eexists _, w'. by split_and!.
Qed.

End Margins.

Lemma created_eq : created = (Ok hyphenator, world1).
Proof. vm_compute. reflexivity. Qed.

Lemma world1_ok : world_ok world1.
Proof. constructor; [apply map_Forall_empty|constructor]. Qed.

Lemma Pyphen_positions_margin_witness :
  world_ok world1 ∧ hd hyphenator = Some 0%nat
  ∧ heap world1 !! 0%nat = Some dic_table
  ∧ ∃ w', @Pyphen_positions rt hyphenator (lit "eexyzee") world1
          = (Ok [int 3; int 5], w').
Proof.
  assert (Hw : world_ok world1)
    by (constructor; [apply map_Forall_empty|constructor]).
  assert (Hd : heap world1 !! 0%nat = Some dic_table) by reflexivity.
  split_and!; [exact Hw|reflexivity|exact Hd|].
  destruct (@Pyphen_positions_margin rt hyphenator (lit "eexyzee") world1
              0%nat dic_table Hw eq_refl Hd) as (pts & w' & Hcall & _).
  exists w'. rewrite Hcall. f_equal. f_equal.
  vm_compute in Hcall. by injection Hcall as <- _.
Defined.

(** ** Tables without nonstandard entries *)

Lemma py_max_plain a b : plain a → plain b → plain (py_max a b).
Proof. unfold py_max. by case_match. Qed.

Lemma overlay_plain i pattern (refs : list DataInt) :
  Forall plain (snd pattern) → Forall plain refs →
  Forall plain (overlay i pattern refs).
Proof.
  intros Hv Hr. apply Forall_lookup. intros k r Hk.
  rewrite overlay_lookup in Hk.
  destruct (refs !! k) as [r0|] eqn:Hr0; simplify_eq/=.
  rewrite Forall_lookup in Hr. specialize (Hr _ _ Hr0).
  unfold combine, weight_at. destruct pattern as [offset values].
  case_decide; [|done].
  destruct (values !! (k - (i + offset))%nat) as [v|] eqn:Hv0; [|done].
  rewrite Forall_lookup in Hv. apply py_max_plain; [|done].
  by eapply Hv.
Qed.

Lemma matches_in_table pats mlen pw m :
  m ∈ matches pats mlen pw → ∃ key, pats !! key = Some (snd m).
Proof.
  unfold matches. rewrite list_elem_of_In, in_flat_map.
  intros (i & _ & Hm). rewrite <- list_elem_of_In in Hm.
  unfold matches_i in Hm. apply list_elem_of_omap in Hm as (j & _ & Hj).
  destruct (pats !! take (j - i) (drop i pw)) as [p|] eqn:Hp; simplify_eq/=.
  by eexists.
Qed.

Lemma overlay_all_plain ms (refs : list DataInt) :
  Forall (fun m => Forall plain (snd (snd m))) ms → Forall plain refs →
  Forall plain (overlay_all ms refs).
Proof.
  revert refs. induction ms as [|m ms IH]; intros refs Hms Hr; [done|].
  apply Forall_cons in Hms as [Hm Hms].
  apply IH; [done|]. by apply overlay_plain.
Qed.

Lemma points_from_plain i refs :
  Forall plain refs → Forall plain (points_from i refs).
Proof.
  revert i. induction refs as [|r refs IH]; intros i Hr; simpl; [done|].
  apply Forall_cons in Hr as [Hr Hrs].
  case_match; [by apply IH|]. constructor; [|by apply IH].
  unfold DataInt_of_reference. by case_match.
Qed.

Lemma find_positions_plain pats mlen word :
  plain_table pats → Forall plain (find_positions pats mlen word).
Proof.
  intros Hp. apply points_from_plain. rewrite scan_matches.
  apply overlay_all_plain.
  - apply Forall_forall. intros m (key & Hkey)%matches_in_table.
    apply (Hp _ _ Hkey).
  - apply Forall_forall. by intros r [-> _]%elem_of_replicate.
Qed.

(** ** [Pyphen.iterate] *)

Lemma elem_of_rev {A} (x : A) (l : list A) : x ∈ rev l → x ∈ l.
Proof. rewrite !list_elem_of_In. apply in_rev. Qed.

Lemma ascending_rev pts : ascending pts → descending (rev pts).
Proof.
  unfold ascending, descending.
  induction 1 as [|p pts _ IH Hall]; simpl; [constructor|].
  apply StronglySorted_app_2; [|done|repeat constructor].
  intros q r Hq%elem_of_rev Hr. apply list_elem_of_singleton in Hr as ->.
  rewrite Forall_forall in Hall. by apply Hall.
Qed.

Lemma adjust_inside len i :
  0 ≤ i ≤ Z.of_nat len → adjust len i = Z.to_nat i.
Proof.
  intros Hi. unfold adjust.
  destruct (Z.ltb_spec i 0); lia.
Qed.

Lemma slice_to_length (word : str) i :
  0 ≤ i ≤ Z.of_nat (length word) →
  Z.of_nat (length (slice_to word i)) = i.
Proof.
  intros Hi. unfold slice_to. rewrite adjust_inside by done.
  rewrite length_take. lia.
Qed.

Section Iterate.
Context `{Runtime}.

Lemma split_at_plain word p :
  plain p → split_at word p = Ok (plain_split word p).
Proof. unfold plain, split_at. by intros ->. Qed.

Lemma yields_plain word ps :
  Forall plain ps → yields word ps = (map (plain_split word) ps, None).
Proof.
  induction 1 as [|p ps Hp _ IH]; simpl; [done|].
  by rewrite split_at_plain, IH.
Qed.









End Iterate.

(** ** [Pyphen.inserted] *)

Lemma concat_hyphenate_list hyphen ps i word :
  concat (hyphenate_list hyphen ps i word) = hyphenate_at hyphen ps i word.
Proof.
  revert i. induction word as [|c rest IH]; intros i;
    cbn [hyphenate_list hyphenate_at].
  - case_decide; simpl; [apply app_nil_r|done].
  - rewrite concat_app. simpl. rewrite IH.
    case_decide; simpl; [by rewrite app_nil_r|done].
Qed.

Lemma hyphenate_list_nil hyphen i word :
  hyphenate_list hyphen [] i word = map (fun c => [c]) word.
Proof.
  revert i. induction word as [|c rest IH]; intros i;
    cbn [hyphenate_list].
  - by rewrite decide_False by apply not_elem_of_nil.
  - rewrite decide_False by apply not_elem_of_nil. simpl. by rewrite IH.
Qed.

Lemma hyphenate_list_length hyphen ps i word :
  (length word ≤ length (hyphenate_list hyphen ps i word))%nat.
Proof.
  revert i. induction word as [|c rest IH]; intros i; simpl; [lia|].
  rewrite length_app. simpl. specialize (IH (i + 1)). lia.
Qed.

Lemma hyphenate_list_passed hyphen p qs i word :
  p < i →
  hyphenate_list hyphen (p :: qs) i word = hyphenate_list hyphen qs i word.
Proof.
  revert i. induction word as [|c rest IH]; intros i Hp;
    cbn [hyphenate_list].
  - destruct (decide (i ∈ p :: qs)) as [Hi|Hi], (decide (i ∈ qs)) as [Hj|Hj];
      [done| |exfalso; apply Hi, elem_of_cons; by right|done].
    apply elem_of_cons in Hi as [->|Hi]; [lia|done].
  - rewrite IH by lia.
    destruct (decide (i ∈ p :: qs)) as [Hi|Hi], (decide (i ∈ qs)) as [Hj|Hj];
      [done| |exfalso; apply Hi, elem_of_cons; by right|done].
    apply elem_of_cons in Hi as [->|Hi]; [lia|done].
Qed.

(** Inserting at an index below all the indices already served gives
    the list for one index more: the pieces after it have moved, the
    pieces before it have not. *)
Lemma insert_hyphenate_list hyphen p qs i word :
  i ≤ p ≤ i + Z.of_nat (length word) →
  Forall (fun q => p < q) qs →
  let k := Z.to_nat (p - i) in
  take k (hyphenate_list hyphen qs i word)
    ++ hyphen :: drop k (hyphenate_list hyphen qs i word)
  = hyphenate_list hyphen (p :: qs) i word.
Proof.
  intros Hp Hqs. simpl. revert i Hp.
  assert (Hnot : ∀ i, i ≤ p → i ∉ qs).
  { intros i Hi Hin. rewrite Forall_forall in Hqs.
    specialize (Hqs _ Hin). lia. }
  induction word as [|c rest IH]; intros i Hp;
    cbn [hyphenate_list length] in *.
  - assert (p = i) as -> by lia. rewrite Z.sub_diag.
    rewrite decide_False by (apply Hnot; lia).
    rewrite decide_True by (apply elem_of_cons; by left). done.
  - rewrite (decide_False (P := i ∈ qs)) by (apply Hnot; lia). simpl.
    destruct (decide (p = i)) as [->|Hne].
    + rewrite Z.sub_diag. simpl.
      rewrite decide_True by (apply elem_of_cons; by left).
      simpl. by rewrite hyphenate_list_passed by lia.
    + rewrite decide_False by (rewrite elem_of_cons; intros [?|?%Hnot]; lia).
      simpl. replace (Z.to_nat (p - i)) with (S (Z.to_nat (p - (i + 1))))
        by lia. simpl. f_equal. apply IH. lia.
Qed.

Lemma insert_inside {A} (l : list A) i x :
  0 ≤ i ≤ Z.of_nat (length l) →
  insert l i x = take (Z.to_nat i) l ++ x :: drop (Z.to_nat i) l.
Proof. intros Hi. unfold insert. by rewrite adjust_inside. Qed.

Section Inserted.
Context `{Runtime}.

Lemma insert_step_plain word hyphen word_list p :
  plain p → insert_step word hyphen word_list p
            = insert word_list (val p) hyphen.
Proof. unfold plain, insert_step. by intros ->. Qed.

Lemma inserted_fold word hyphen pts :
  ascending pts → Forall plain pts →
  Forall (fun p => 0 ≤ val p ≤ Z.of_nat (length word)) pts →
  fold_left (insert_step word hyphen) (rev pts) (map (fun c => [c]) word)
  = hyphenate_list hyphen (map val pts) 0 word.
Proof.
  induction 1 as [|p pts _ IH Hall]; intros Hplain Hin; simpl.
  - by rewrite hyphenate_list_nil.
  - apply Forall_cons in Hplain as [Hp Hplain].
    apply Forall_cons in Hin as [Hpin Hin].
    rewrite fold_left_app. simpl. rewrite IH by done.
    rewrite insert_step_plain by done.
    rewrite insert_inside.
    + rewrite <- (insert_hyphenate_list hyphen (val p) (map val pts) 0 word).
      * by rewrite Z.sub_0_r.
      * lia.
      * apply Forall_forall. intros q (p' & -> & Hp')%list_elem_of_fmap.
        rewrite Forall_forall in Hall. by apply Hall.
    + pose proof (hyphenate_list_length hyphen (map val pts) 0 word). lia.
Qed.

End Inserted.

(** Splitting at a character and joining the pieces drops the
    occurrences of the character. *)
Lemma concat_split c s : concat (split c s) = filter (fun x => x ≠ c) s.
Proof.
  induction s as [|x rest IH]; [done|].
  cbn [split]. rewrite filter_cons.
  destruct (decide (x = c)) as [->|Hne].
  - rewrite decide_False by (intros Hc; by apply Hc). done.
  - rewrite decide_True by done. rewrite <- IH.
    by destruct (split c rest).
Qed.

Lemma filter_hyphenate_at c ps i word :
  filter (fun x => x ≠ c) (hyphenate_at [c] ps i word)
  = filter (fun x => x ≠ c) word.
Proof.
  revert i. induction word as [|x rest IH]; intros i;
    cbn [hyphenate_at].
  - destruct (decide (i ∈ ps)); [|done].
    rewrite filter_cons. by rewrite decide_False by (intros Hc; by apply Hc).
  - rewrite filter_app, !filter_cons, IH.
    destruct (decide (i ∈ ps)); [|done]. rewrite filter_cons.
    by rewrite (decide_False (P := c ≠ c)) by (intros Hc; by apply Hc).
Qed.

Lemma filter_absent c (word : str) :
  c ∉ word → filter (fun x => x ≠ c) word = word.
Proof.
  induction word as [|x rest IH]; intros Hc; [done|].
  apply not_elem_of_cons in Hc as [Hx Hrest].
  rewrite filter_cons, decide_True by done.
  by rewrite IH.
Qed.

Section InsertedPlain.
Context `{Runtime}.

(** C3 (amended).  For an instance with non-negative margins and a word
    whose break positions are all plain, [inserted] is the word with the
    hyphen written at each of these indices of the original word.  When
    the hyphen is one character, splitting the result at it gives pieces
    that concatenate to the characters of the word other than the
    hyphen: to the word itself when it does not contain the hyphen. *)
Theorem Pyphen_inserted_plain (self : Pyphen) (word hyphen : str) (w : World)
    l d :
  world_ok w → hd self = Some l → heap w !! l = Some d →
  0 ≤ left self → 0 ≤ right self →
  ∃ pts w',
    Pyphen_positions self word w = (Ok pts, w') ∧
    (Forall plain pts →
       Pyphen_inserted self word hyphen w
       = (Ok (hyphenate_at hyphen (map val pts) 0 word), w') ∧
       ∀ c, hyphen = [c] →
            concat (split c (hyphenate_at hyphen (map val pts) 0 word))
            = filter (fun x => x ≠ c) word
            ∧ (c ∉ word →
               concat (split c (hyphenate_at hyphen (map val pts) 0 word))
               = word)).
Proof.
  intros Hw Hl Hd Hleft Hright.
  destruct (Pyphen_positions_kept self word w l d Hw Hl Hd)
    as (w' & Hcall & _).
  destruct (margin_filter (left self)
              (Z.of_nat (length word) - right self)
              (find_positions (patterns d) (maxlen d) (str_lower word))
              (find_positions_ascending _ _ _)) as (Hin & _ & Hasc).
  revert Hcall Hin Hasc. generalize (filter
    (fun i => left self ≤ val i
              ∧ val i ≤ Z.of_nat (length word) - right self)
    (find_positions (patterns d) (maxlen d) (str_lower word))).
  intros pts Hcall Hin Hasc.
  exists pts, w'. split; [done|]. intros Hplain. split.
  - unfold Pyphen_inserted. rewrite Hcall.
    rewrite inserted_fold; [by rewrite concat_hyphenate_list|done..|].
    eapply Forall_impl; [exact Hin|]. simpl. lia.
  - intros c ->. rewrite concat_split, filter_hyphenate_at.
    split; [done|]. apply filter_absent.
Qed.

End InsertedPlain.

Lemma dic_plain : plain_table (patterns dic_table).
Proof.
  repeat (apply map_Forall_insert_2; [repeat constructor|]).
  apply map_Forall_empty.
Qed.

Lemma Pyphen_inserted_plain_witness :
  world_ok world1 ∧ hd hyphenator = Some 0%nat
  ∧ heap world1 !! 0%nat = Some dic_table
  ∧ 0 ≤ left hyphenator ∧ 0 ≤ right hyphenator
  ∧ ∃ w', @Pyphen_inserted rt hyphenator (lit "eexyzee") (lit "-") world1
          = (Ok (lit "eex-yz-ee"), w')
        ∧ concat (split "-" (lit "eex-yz-ee")) = lit "eexyzee".
Proof.
  assert (Hw : world_ok world1)
    by (constructor; [apply map_Forall_empty|constructor]).
  assert (Hd : heap world1 !! 0%nat = Some dic_table) by reflexivity.
  assert (H2 : 0 ≤ 2) by lia.
  split_and!; [exact Hw|reflexivity|exact Hd|exact H2|exact H2|].
  destruct (@Pyphen_inserted_plain rt hyphenator (lit "eexyzee") (lit "-")
              world1 0%nat dic_table Hw eq_refl Hd H2 H2)
    as (pts & w' & Hcall & Hplain).
  vm_compute in Hcall. injection Hcall as <- Hw'.
  destruct Hplain as [Hins Hsplit]; [repeat constructor|].
  exists w'. split; [exact Hins|].
  apply (Hsplit "-"%char eq_refl). vm_compute.
  intros Hin. repeat (apply elem_of_cons in Hin as [Hin|Hin]; [discriminate|]).
  by apply elem_of_nil in Hin.
Defined.

Lemma inserted_split_loses_hyphen :
  ∃ w', @Pyphen_positions rt hyphenator (lit "ee-xyz") world1
        = (Ok [int 4], w')
      ∧ @Pyphen_inserted rt hyphenator (lit "ee-xyz") (lit "-") world1
        = (Ok (lit "ee-x-yz"), w')
      ∧ concat (split "-" (lit "ee-x-yz")) = lit "eexyz"
      ∧ lit "eexyz" ≠ lit "ee-xyz".
Proof.
  exists (@Pyphen_positions rt hyphenator (lit "ee-xyz") world1).2.
  split_and!; [vm_compute; reflexivity..|discriminate].
Qed.



(** ** [Pyphen.wrap] *)

Section Wrap.
Context `{Runtime}.

Lemma wrap_loop_first width hyphen pre w1 w2 post fin :
  Forall (too_long width) pre → Z.of_nat (length w1) ≤ width →
  wrap_loop width hyphen (pre ++ (w1, w2) :: post) fin
  = Ok (Some (w1 ++ hyphen, w2)).
Proof.
  intros Hpre Hfit. induction Hpre as [|[h t] pre Hlong _ IH]; simpl.
  - destruct (Z.leb_spec (Z.of_nat (length w1)) width); [done|lia].
  - unfold too_long in Hlong. simpl in Hlong.
    destruct (Z.leb_spec (Z.of_nat (length h)) width); [lia|done].
Qed.

Lemma wrap_loop_none width hyphen items fin :
  Forall (too_long width) items →
  wrap_loop width hyphen items fin
  = match fin with None => Ok None | Some e => Raise e end.
Proof.
  induction 1 as [|[h t] items Hlong _ IH]; simpl; [done|].
  unfold too_long in Hlong. simpl in Hlong.
  destruct (Z.leb_spec (Z.of_nat (length h)) width); [lia|done].
Qed.



End Wrap.



(** ** Construction *)

Section Init.
Context `{Runtime}.

(** C9.  An instance created without [filename] and [lang] has no [hd]
    and the creation leaves the world as it was; [positions], [wrap]
    and [inserted] then raise [AttributeError] in every world, and the
    generator of [iterate] ends by it before yielding anything. *)
Theorem Pyphen_without_table (left_ right_ : Z) (cache_ : bool) (w : World) :
  ∃ self,
    Pyphen_init None None left_ right_ cache_ w = (Ok self, w) ∧
    hd self = None ∧
    ∀ (w2 : World) (word hyphen : str) (width : Z),
      Pyphen_positions self word w2 = (Raise AttributeError, w2) ∧
      Pyphen_iterate self word w2 = (([], Some AttributeError), w2) ∧
      Pyphen_wrap self word width hyphen w2 = (Raise AttributeError, w2) ∧
      Pyphen_inserted self word hyphen w2 = (Raise AttributeError, w2).
Proof.
  exists (mkPyphen left_ right_ None). split_and!; try done.
Qed.

Lemma attach_fresh (name : str) (w : World) content d :
  files w name = Some content → HyphDict_init content = Ok d →
  attach name false w
  = (Ok (length (heap w)),
     mkWorld (files w) (<[name := length (heap w)]> (hdcache w))
       (heap w ++ [d])).
Proof.
  intros Hf Hd. unfold attach, HyphDict_new. simpl. rewrite Hf, Hd. simpl.
  by rewrite lookup_insert_eq.
Qed.

Lemma attach_cached (name : str) (w : World) l :
  hdcache w !! name = Some l → attach name true w = (Ok l, w).
Proof.
  intros Hc. unfold attach. simpl.
  rewrite bool_decide_eq_false_2 by (by rewrite Hc). by rewrite Hc.
Qed.

(** C10.  Creating an instance for a file with [cache=False] parses the
    file into a new object, stores it in [hdcache] under the file name
    in place of the entry there, and gives the instance the reference
    read back from [hdcache]; an instance created afterwards for the
    same file with [cache=True] shares this object. *)
Theorem Pyphen_init_without_cache (name : str) (lang : option str)
    (left_ right_ : Z) (w : World) content d :
  name ≠ [] → files w name = Some content → HyphDict_init content = Ok d →
  ∃ l w',
    Pyphen_init (Some name) lang left_ right_ false w
    = (Ok (mkPyphen left_ right_ (Some l)), w') ∧
    heap w !! l = None ∧
    heap w' = heap w ++ [d] ∧ heap w' !! l = Some d ∧
    hdcache w' = <[name := l]> (hdcache w) ∧
    hdcache w' !! name = Some l ∧
    (∀ l0, hdcache w !! name = Some l0 → is_Some (heap w !! l0) → l0 ≠ l) ∧
    ∀ lang2 left2 right2,
      Pyphen_init (Some name) lang2 left2 right2 true w'
      = (Ok (mkPyphen left2 right2 (Some l)), w').
Proof.
  intros Hname Hf Hd.
  exists (length (heap w)),
    (mkWorld (files w) (<[name := length (heap w)]> (hdcache w))
       (heap w ++ [d])).
  destruct name as [|c name]; [done|].
  split_and!.
  - unfold Pyphen_init. simpl. by erewrite attach_fresh.
  - by apply lookup_ge_None_2.
  - done.
  - simpl. by rewrite lookup_app_r, Nat.sub_diag.
  - done.
  - simpl. apply lookup_insert_eq.
  - intros l0 _ Hl0%lookup_lt_is_Some. lia.
  - intros lang2 left2 right2. unfold Pyphen_init. simpl.
    erewrite attach_cached; [done|]. simpl. apply lookup_insert_eq.
Qed.

End Init.

Lemma Pyphen_init_without_cache_witness :
  dic_name ≠ [] ∧ files world1 dic_name = Some dic
  ∧ @HyphDict_init rt dic = Ok dic_table
  ∧ ∃ w', @Pyphen_init rt (Some dic_name) None 2 2 false world1
          = (Ok (mkPyphen 2 2 (Some 1%nat)), w')
        ∧ hdcache world1 !! dic_name = Some 0%nat
        ∧ hdcache w' !! dic_name = Some 1%nat.
Proof.
  assert (Hn : dic_name ≠ []) by discriminate.
  assert (Hf : files world1 dic_name = Some dic) by reflexivity.
  assert (Hd : @HyphDict_init rt dic = Ok dic_table)
    by (vm_compute; reflexivity).
  split_and!; [exact Hn|exact Hf|exact Hd|].
  destruct (@Pyphen_init_without_cache rt dic_name None 2 2 world1 dic
              dic_table Hn Hf Hd)
    as (l & w' & Hinit & Hfresh & Hheap & Hat & _ & Hnew & _).
  assert (Hl : l = 1%nat)
    by (rewrite (lookup_ge_None (heap world1) l) in Hfresh;
        apply lookup_lt_Some in Hat; rewrite Hheap in Hat;
        simpl in Hfresh, Hat; lia).
  subst l. exists w'. split_and!; [exact Hinit|reflexivity|exact Hnew].
Defined.

(** ** The parser: what a line stores *)

Lemma leading_zeros_le values : (leading_zeros values ≤ length values)%nat.
Proof.
  induction values as [|v rest IH]; simpl; [lia|].
  destruct (is_zero v); lia.
Qed.

Lemma leading_zeros_all values :
  leading_zeros values = length values ↔ all_zero values.
Proof.
  unfold all_zero. induction values as [|v rest IH]; simpl.
  - split; [constructor|done].
  - unfold is_zero. destruct (Z.eqb_spec (val v) 0) as [Hz|Hz].
    + rewrite Forall_cons. split; [intros [= Hl]; tauto|].
      intros [_ Hr]. f_equal. tauto.
    + split; [pose proof (leading_zeros_le rest); lia|].
      intros [Hv _]%Forall_cons. done.
Qed.

Lemma lstrip_leading_zeros values :
  lstrip is_zero values = drop (leading_zeros values) values.
Proof.
  induction values as [|v rest IH]; simpl; [done|].
  by destruct (is_zero v).
Qed.

Lemma leading_zeros_lookup values :
  ¬ all_zero values →
  ∃ v, values !! leading_zeros values = Some v ∧ val v ≠ 0.
Proof.
  unfold all_zero. induction values as [|v rest IH]; intros Hnz; simpl.
  - destruct Hnz. constructor.
  - unfold is_zero. destruct (Z.eqb_spec (val v) 0) as [Hz|Hz].
    + apply IH. intros Hr. apply Hnz. by constructor.
    + by exists v.
Qed.

Lemma leading_zeros_app_nonzero xs ys :
  ¬ all_zero xs → leading_zeros (xs ++ ys) = leading_zeros xs.
Proof.
  unfold all_zero. induction xs as [|v rest IH]; intros Hnz; simpl.
  - destruct Hnz. constructor.
  - unfold is_zero. destruct (Z.eqb_spec (val v) 0) as [Hz|Hz]; [|done].
    f_equal. apply IH. intros Hr. apply Hnz. by constructor.
Qed.

Lemma all_zero_rev values : all_zero (rev values) ↔ all_zero values.
Proof.
  unfold all_zero. rewrite !Forall_forall.
  split; intros Hall v Hv; apply Hall.
  - rewrite list_elem_of_In in *. by apply in_rev in Hv.
  - by apply elem_of_rev.
Qed.

Lemma chop_start_spec values start :
  chop_start values start
  = if decide (all_zero values) then Raise IndexError
    else Ok (start + leading_zeros values)%nat.
Proof.
  revert start. induction values as [|v rest IH]; intros start;
    cbn [chop_start leading_zeros].
  - destruct (decide (all_zero [])) as [_|Hnz]; [done|].
    destruct Hnz. constructor.
  - unfold is_zero.
    destruct (Z.eqb_spec (val v) 0) as [Hz|Hz].
    + rewrite IH. destruct (decide (all_zero rest)) as [Hr|Hr].
      * rewrite decide_True by (by constructor). done.
      * rewrite decide_False by (by intros [_ ?]%Forall_cons).
        f_equal. lia.
    + rewrite decide_False by (by intros [? _]%Forall_cons).
      f_equal. lia.
Qed.

Lemma rev_reverse {A} (l : list A) : rev l = reverse l.
Proof. apply rev_alt. Qed.

Lemma leading_zeros_zero values i v :
  (i < leading_zeros values)%nat → values !! i = Some v → val v = 0.
Proof.
  revert i. induction values as [|x rest IH]; intros i; simpl; [lia|].
  unfold is_zero. destruct (Z.eqb_spec (val x) 0) as [Hz|Hz]; [|lia].
  destruct i as [|i]; simpl; [by intros _ [= <-]|].
  intros Hi. apply IH. lia.
Qed.

Lemma getitem_inside {A} (l : list A) (i : Z) :
  0 ≤ i → getitem l i
          = match l !! Z.to_nat i with Some x => Ok x | None => Raise IndexError end.
Proof.
  intros Hi. unfold getitem.
  destruct (Z.ltb_spec i 0); [lia|].
  destruct (Z.ltb_spec i 0); [lia|done].
Qed.

Lemma chop_end_step values j :
  ¬ all_zero values →
  (j ≤ leading_zeros (rev values))%nat →
  chop_end values (2 * length values - leading_zeros (rev values) + j)
  = Ok (Z.of_nat (length values) - Z.of_nat (leading_zeros (rev values))).
Proof.
  intros Hnz. set (b := leading_zeros (rev values)).
  assert (Hb : (b < length values)%nat).
  { pose proof (leading_zeros_le (rev values)) as Hle.
    rewrite length_rev in Hle.
    destruct (decide (b = length values)) as [Heq|]; [|subst b; lia].
    exfalso. apply Hnz, all_zero_rev, leading_zeros_all.
    by rewrite length_rev. }
  assert (Hlook : ∀ i, (i < length values)%nat →
            rev values !! i = values !! (length values - 1 - i)%nat).
  { intros i Hi. rewrite rev_reverse, reverse_lookup by done.
    f_equal. lia. }
  induction j as [|j IH]; intros Hj.
  - destruct (2 * length values - b + 0)%nat as [|n] eqn:Hn; [lia|].
    cbn [chop_end]. rewrite getitem_inside by lia.
    destruct (leading_zeros_lookup (rev values)) as (v & Hv & Hvz).
    { by rewrite all_zero_rev. }
    fold b in Hv. rewrite Hlook in Hv by done.
    replace (Z.to_nat (Z.of_nat (S n) - Z.of_nat (length values) - 1))
      with (length values - 1 - b)%nat by lia.
    rewrite Hv. simpl. destruct (Z.eqb_spec (val v) 0); [done|].
    f_equal. lia.
  - replace (2 * length values - b + S j)%nat
      with (S (2 * length values - b + j)) by lia.
    cbn [chop_end]. rewrite getitem_inside by lia.
    replace (Z.to_nat (Z.of_nat (S (2 * length values - b + j))
                       - Z.of_nat (length values) - 1))
      with (length values - 1 - (b - S j))%nat by lia.
    rewrite <- Hlook by lia.
    destruct (rev values !! (b - S j)%nat) as [v|] eqn:Hv.
    + simpl. rewrite (leading_zeros_zero (rev values) (b - S j)%nat v);
        [|fold b; lia|done].
      simpl. apply IH. lia.
    + apply lookup_ge_None_1 in Hv. rewrite length_rev in Hv. lia.
Qed.

Lemma chop_end_spec values :
  ¬ all_zero values →
  chop_end values (2 * length values)
  = Ok (Z.of_nat (length values) - Z.of_nat (leading_zeros (rev values))).
Proof.
  intros Hnz.
  pose proof (leading_zeros_le (rev values)) as Hle.
  rewrite length_rev in Hle.
  rewrite <- (chop_end_step values (leading_zeros (rev values)) Hnz)
    by done.
  f_equal. lia.
Qed.

Lemma strip_zeros_slice values :
  ¬ all_zero values →
  slice values (Z.of_nat (leading_zeros values))
    (Z.of_nat (length values) - Z.of_nat (leading_zeros (rev values)))
  = strip is_zero values.
Proof.
  intros Hnz. set (a := leading_zeros values).
  set (b := leading_zeros (rev values)).
  pose proof (leading_zeros_le values) as Ha. fold a in Ha.
  pose proof (leading_zeros_le (rev values)) as Hb.
  rewrite length_rev in Hb. fold b in Hb.
  destruct (leading_zeros_lookup values Hnz) as (v & Hv & Hvz). fold a in Hv.
  apply lookup_lt_Some in Hv as Hlt.
  unfold slice. rewrite !adjust_inside by lia.
  unfold strip. rewrite !lstrip_leading_zeros. fold a.
  assert (Hb' : leading_zeros (rev (drop a values)) = b).
  { unfold b. rewrite <- (take_drop a values) at 2.
    rewrite rev_app_distr. rewrite leading_zeros_app_nonzero; [done|].
    rewrite all_zero_rev. intros Hall.
    assert (Hd : drop a values !! 0%nat = Some v)
      by (rewrite lookup_drop; rewrite <- Hv; f_equal; lia).
    unfold all_zero in Hall. rewrite Forall_lookup in Hall.
    by specialize (Hall _ _ Hd). }
  rewrite Hb'. rewrite !rev_reverse, drop_reverse, reverse_involutive.
  rewrite length_drop, Nat2Z.id. f_equal. lia.
Qed.

Lemma max_val_zero values m :
  max_val values = Ok m → all_zero values → m = 0.
Proof.
  destruct values as [|v rest]; [done|]. simpl. intros [= <-].
  intros [Hv Hr]%Forall_cons. rewrite Hv. clear Hv.
  induction Hr as [|x rest Hx _ IH]; simpl; [done|].
  by rewrite Hx.
Qed.

Lemma fold_max_ge (zs : list Z) (z : Z) :
  z ≤ fold_left Z.max zs z ∧ Forall (fun x => x ≤ fold_left Z.max zs z) zs.
Proof.
  revert z. induction zs as [|x zs IH]; intros z; simpl.
  - split; [lia|constructor].
  - destruct (IH (Z.max z x)) as [Hz Hall]. split; [lia|].
    constructor; [lia|done].
Qed.

Lemma max_val_positive values m :
  max_val values = Ok m → Forall (fun v => 0 ≤ val v) values →
  ¬ all_zero values → m ≠ 0.
Proof.
  destruct values as [|v rest]; [done|]. simpl. intros [= <-] Hpos Hnz Hm.
  destruct (fold_max_ge (map val rest) (val v)) as [Hv Hall].
  rewrite Hm in Hv, Hall. apply Hnz.
  apply Forall_cons in Hpos as [Hv0 Hpos]. constructor; [lia|].
  apply Forall_forall. intros x Hx.
  rewrite Forall_forall in Hpos. rewrite Forall_forall in Hall.
  specialize (Hpos _ Hx). specialize (Hall (val x)).
  assert (val x ≤ 0); [|lia].
  apply Hall. by apply list_elem_of_fmap_2.
Qed.

Lemma store_kept pats tags values m :
  max_val values = Ok m → m ≠ 0 →
  ¬ all_zero values ∧
  store pats tags values
  = Ok (<[concat tags := (leading_zeros values, strip is_zero values)]> pats).
Proof.
  intros Hm Hm0.
  assert (Hnz : ¬ all_zero values)
    by (intros Hall; by apply Hm0, (max_val_zero values)).
  split; [done|]. unfold store. rewrite Hm. simpl.
  destruct (Z.eqb_spec m 0); [done|].
  rewrite chop_start_spec, decide_False by done. simpl.
  rewrite chop_end_spec by done. simpl.
  by rewrite strip_zeros_slice.
Qed.

Lemma store_discarded pats tags values :
  values ≠ [] → all_zero values → store pats tags values = Ok pats.
Proof.
  intros Hne Hall. unfold store.
  destruct (max_val values) as [m|e] eqn:Hm.
  - simpl. by rewrite (max_val_zero values m Hm Hall).
  - by destruct values.
Qed.

Lemma head_lstrip values :
  ¬ all_zero values →
  ∃ v, head (lstrip is_zero values) = Some v ∧ val v ≠ 0.
Proof.
  intros Hnz. rewrite lstrip_leading_zeros, head_lookup, lookup_drop.
  destruct (leading_zeros_lookup values Hnz) as (v & Hv & Hvz).
  exists v. split; [|done]. rewrite <- Hv. f_equal. lia.
Qed.

Lemma last_lstrip values :
  ¬ all_zero values → last (lstrip is_zero values) = last values.
Proof.
  intros Hnz. rewrite lstrip_leading_zeros, !last_lookup, lookup_drop.
  destruct (leading_zeros_lookup values Hnz) as (v & Hv%lookup_lt_Some & _).
  rewrite length_drop. f_equal. lia.
Qed.

Lemma lstrip_not_all_zero values :
  ¬ all_zero values → ¬ all_zero (lstrip is_zero values).
Proof.
  intros Hnz Hall. destruct (head_lstrip values Hnz) as (v & Hv & Hvz).
  apply Hvz. unfold all_zero in Hall. rewrite Forall_lookup in Hall.
  apply (Hall 0%nat). by rewrite <- head_lookup.
Qed.

Lemma strip_zeros_trimmed start values :
  ¬ all_zero values → trimmed (start, strip is_zero values).
Proof.
  intros Hnz. unfold trimmed, strip. simpl.
  pose proof (lstrip_not_all_zero values Hnz) as Hin.
  rewrite <- all_zero_rev in Hin. split_and!.
  - rewrite all_zero_rev. by apply lstrip_not_all_zero.
  - rewrite rev_reverse, head_reverse, last_lstrip by done.
    rewrite rev_reverse, last_reverse. by apply head_lstrip.
  - rewrite rev_reverse, last_reverse. by apply head_lstrip.
Qed.

(** *** Tokens *)

Lemma digit_value c d :
  digit c = Some d → 0 ≤ d ≤ 9 ∧ int_of_str [c] = Ok d.
Proof.
  intros Hd.
  destruct c as [[] [] [] [] [] [] [] []]; vm_compute in Hd;
    try discriminate Hd; injection Hd as <-;
    (split; [lia|vm_compute; reflexivity]).
Qed.

Lemma parse_tokens s :
  (Forall digit_token (parse s)
   ∧ concat (map snd (parse s)) = filter is_letter s)
  ∧ ∀ c, Forall digit_token (parse (c :: s))
         ∧ concat (map snd (parse (c :: s))) = filter is_letter (c :: s).
Proof.
  assert (Hnil : digit_token ([], [])) by (by left).
  induction s as [|c2 rest2 [[IHt IHk] IHc]].
  - split; [split; [by repeat constructor|done]|].
    intros c. cbn [parse]. rewrite filter_cons. unfold is_letter.
    destruct (digit c) as [d|] eqn:Hd.
    + rewrite decide_False by done.
      split; [|done]. constructor; [right; by exists c, d|].
      constructor; [done|constructor].
    + rewrite decide_True by done.
      split; [|done]. constructor; [by left|].
      constructor; [done|constructor].
  - split; [apply IHc|]. intros c.
    destruct (IHc c2) as [IHt2 IHk2].
    cbn [parse] in *. rewrite (filter_cons _ c). unfold is_letter in *.
    destruct (digit c) as [d|] eqn:Hd.
    + rewrite decide_False by done.
      destruct (digit c2) as [d2|] eqn:Hd2.
      * split; [|by rewrite <- IHk2].
        constructor; [right; by exists c, d|done].
      * rewrite filter_cons, decide_True by done.
        split; [|simpl; by rewrite IHk].
        constructor; [right; by exists c, d|done].
    + rewrite decide_True by done.
      split; [|simpl; by rewrite <- IHk2].
      constructor; [by left|done].
Qed.

Lemma factory_call_val factory value z v factory' :
  int_of_str value = Ok z →
  factory_call factory value = Ok (v, factory') → val v = z.
Proof.
  intros Hz. unfold factory_call, AlternativeParser_call.
  destruct factory as [|parser]; rewrite Hz; simpl.
  - by intros [= <- _].
  - destruct (Z.land z 1 =? 0); simpl; by intros [= <- _].
Qed.

Lemma tags_values_spec factory tokens tags values :
  tags_values factory tokens = Ok (tags, values) →
  tags = map snd tokens ∧ length values = length tokens ∧
  (Forall digit_token tokens → Forall (fun v => 0 ≤ val v ≤ 9) values).
Proof.
  revert factory tags values.
  induction tokens as [|[i string] rest IH]; intros factory tags values.
  - simpl. intros [= <- <-]. split_and!; [done..|constructor].
  - cbn [tags_values].
    destruct (factory_call factory (match i with [] => lit "0" | _ => i end))
      as [[v factory']|e] eqn:Hcall; simpl; [|done].
    destruct (tags_values factory' rest) as [[tags' values']|e] eqn:Hrest;
      simpl; [|done].
    intros [= <- <-].
    destruct (IH _ _ _ Hrest) as (-> & Hlen & Hpos).
    split_and!; [done|simpl; by rewrite Hlen|].
    intros [Htok Hrestok]%Forall_cons. constructor; [|by apply Hpos].
    destruct Htok as [Hi|(c & d & Hi & Hd)]; simpl in Hi; subst i.
    + assert (Hint : int_of_str (lit "0") = Ok 0) by (vm_compute; reflexivity).
      by rewrite (factory_call_val _ _ 0 _ _ Hint Hcall).
    + destruct (digit_value c d Hd) as [Hrange Hint].
      by rewrite (factory_call_val _ _ d _ _ Hint Hcall).
Qed.

Lemma pattern_tags_values factory pattern tags values :
  match parse pattern with
  | [] => Raise ValueError
  | token :: tokens => tags_values factory (token :: tokens)
  end = Ok (tags, values) →
  values ≠ [] ∧ Forall (fun v => 0 ≤ val v ≤ 9) values ∧
  concat tags = filter is_letter pattern.
Proof.
  intros Htv.
  assert (Htv' : tags_values factory (parse pattern) = Ok (tags, values))
    by (by destruct (parse pattern)).
  destruct (tags_values_spec _ _ _ _ Htv') as (-> & Hlen & Hpos).
  destruct (parse_tokens pattern) as [[Htok Hkey] _].
  split_and!; [|exact (Hpos Htok)|exact Hkey].
  intros ->. simpl in Hlen.
  destruct pattern as [|c [|c2 rest]]; cbn [parse] in Hlen;
    repeat case_match; discriminate Hlen.
Qed.

Lemma line_tags_values_spec text tags values :
  line_tags_values text = Ok (tags, values) →
  values ≠ [] ∧ Forall (fun v => 0 ≤ val v ≤ 9) values ∧
  ∃ pattern,
    (pattern = text ∨ ∃ alternative, split1 "/" text = [pattern; alternative])
    ∧ concat tags = filter is_letter pattern.
Proof.
  unfold line_tags_values.
  destruct (bool_decide _ && bool_decide _).
  - destruct (split1 "/" text) as [|p [|a [|? ?]]]; try done.
    destruct (AlternativeParser_init p a) as [parser|e]; [|done].
    intros Htv.
    destruct (pattern_tags_values (Alternative parser) p tags values Htv)
      as (Hne & Hpos & Hkey).
    split_and!; [done..|]. exists p. split; [|done]. right. by exists a.
  - intros Htv.
    destruct (pattern_tags_values PlainInt text tags values Htv)
      as (Hne & Hpos & Hkey).
    split_and!; [done..|]. exists text. split; [by left|done].
Qed.

(** *** The table of a parsed dictionary *)

Lemma store_trimmed pats tags values pats' :
  store pats tags values = Ok pats' →
  table_trimmed pats → table_trimmed pats'.
Proof.
  intros Hstore Hpats.
  destruct (max_val values) as [m|e] eqn:Hm;
    [|unfold store in Hstore; by rewrite Hm in Hstore].
  destruct (decide (m = 0)) as [->|Hm0].
  - unfold store in Hstore. rewrite Hm in Hstore. simpl in Hstore.
    by injection Hstore as <-.
  - destruct (store_kept pats tags values m Hm Hm0) as [Hnz Heq].
    rewrite Heq in Hstore. injection Hstore as <-.
    apply map_Forall_insert_2; [|done]. by apply strip_zeros_trimmed.
Qed.

Lemma process_line_trimmed pats line pats' :
  process_line pats line = Ok pats' →
  table_trimmed pats → table_trimmed pats'.
Proof.
  unfold process_line. destruct (skipped line); [by intros [= <-]|].
  destruct (line_tags_values (parse_hex line)) as [[tags values]|e];
    [|done].
  apply store_trimmed.
Qed.

Section ParsedTable.
Context `{Runtime}.

Lemma read_patterns_trimmed charset stream pats pats' :
  read_patterns charset stream pats = Ok pats' →
  table_trimmed pats → table_trimmed pats'.
Proof.
  revert pats. induction stream as [|line rest IH]; intros pats; simpl.
  - by intros [= <-].
  - destruct (decode charset line) as [pattern|e]; [|done]. simpl.
    destruct (process_line pats (strip str_isspace pattern))
      as [pats1|e] eqn:Hline; [|done]. simpl.
    intros Hrest Hpats. apply (IH _ Hrest).
    by apply (process_line_trimmed _ _ _ Hline).
Qed.

(** C6.  For a pattern line with its tags and values: the key is the
    pattern text without its digits; when all values are zero the table
    is left as it was; otherwise the table gets, under the key and in
    place of an entry there, the number of leading zero values with the
    values stripped of leading and trailing zeros.  Hence every entry of
    a parsed dictionary has weights that are not all zero and do not
    start or end with zero. *)
Theorem parser_stores_trimmed_weights :
  (∀ (pats : gmap str Pattern) (line : str) tags values,
     skipped line = false →
     line_tags_values (parse_hex line) = Ok (tags, values) →
     (∃ pattern,
        (pattern = parse_hex line
         ∨ ∃ alternative,
             split1 "/" (parse_hex line) = [pattern; alternative])
        ∧ concat tags = filter is_letter pattern) ∧
     (all_zero values → process_line pats line = Ok pats) ∧
     (¬ all_zero values →
        process_line pats line
        = Ok (<[concat tags := (leading_zeros values, strip is_zero values)]>
                pats)
        ∧ trimmed (leading_zeros values, strip is_zero values))) ∧
  (∀ (content : bytes) (d : HyphDict),
     HyphDict_init content = Ok d → table_trimmed (patterns d)).
Proof.
  split.
  - intros pats line tags values Hskip Htv.
    destruct (line_tags_values_spec _ _ _ Htv) as (Hne & Hpos & Hkey).
    split; [exact Hkey|].
    unfold process_line. rewrite Hskip, Htv. simpl. split.
    + by apply store_discarded.
    + intros Hnz. split; [|by apply strip_zeros_trimmed].
      destruct (max_val values) as [m|e] eqn:Hm; [|by destruct values].
      apply (store_kept pats tags values m Hm).
      apply (max_val_positive values m Hm); [|done].
      eapply Forall_impl; [exact Hpos|]. simpl. lia.
  - intros content d. unfold HyphDict_init.
    destruct (declared_charset _) as [charset|e]; [|done]. simpl.
    destruct (read_patterns _ _ ∅) as [pats|e] eqn:Hread; [|done]. simpl.
    destruct (max_key_length pats) as [mlen|e]; [|done]. simpl.
    intros [= <-]. simpl.
    apply (read_patterns_trimmed _ _ _ _ Hread). apply map_Forall_empty.
Qed.

End ParsedTable.

Lemma parser_stores_trimmed_weights_witness :
  process_line dic_patterns (lit "0e0x1y2z3")
  = Ok (<[lit "exyz" := (2%nat, [int 1; int 2; int 3])]> dic_patterns)
  ∧ process_line dic_patterns (lit "e0x0") = Ok dic_patterns
  ∧ table_trimmed (patterns dic_table).
Proof.
  destruct (@parser_stores_trimmed_weights rt) as [Hline Htable].
  split_and!.
  - destruct (Hline dic_patterns (lit "0e0x1y2z3")
                [lit "e"; lit "x"; lit "y"; lit "z"; []; []]
                [int 0; int 0; int 1; int 2; int 3; int 0]
                eq_refl eq_refl) as (_ & _ & Hkept).
    destruct Hkept as [-> _]; [|reflexivity].
    intros Hall. apply Forall_cons in Hall as [_ Hall].
    apply Forall_cons in Hall as [_ Hall].
    by apply Forall_cons in Hall as [Hall _].
  - destruct (Hline dic_patterns (lit "e0x0")
                [lit "e"; lit "x"; []; []] [int 0; int 0; int 0; int 0]
                eq_refl eq_refl) as (_ & Hdropped & _).
    apply Hdropped. by repeat constructor.
  - apply (Htable dic). vm_compute. reflexivity.
Defined.

(** ** The parser: failures *)

Section ParserFailures.
Context `{Runtime}.

Lemma read_patterns_undecodable charset stream pats line :
  line ∈ stream → failed (decode charset line) →
  failed (read_patterns charset stream pats).
Proof.
  intros Hin [e0 He0]. revert pats.
  induction stream as [|l rest IH]; intros pats;
    [by apply elem_of_nil in Hin|].
  cbn [read_patterns].
  destruct (decode charset l) as [pattern|e] eqn:Hl; [|by exists e].
  simpl.
  destruct (process_line pats (strip str_isspace pattern)) as [pats1|e];
    [|by exists e]. simpl.
  apply elem_of_cons in Hin as [->|Hin]; [congruence|]. by apply IH.
Qed.

Lemma max_key_length_empty : max_key_length ∅ = Raise ValueError.
Proof. unfold max_key_length. by rewrite map_to_list_empty. Qed.

(** C7.  [HyphDict.__init__] raises, and gives no object, on an empty
    file, on a first line that is not ASCII, when a later line cannot be
    decoded in the declared charset, and when no pattern is left after
    all lines; [Pyphen.__init__] then raises too and leaves [hdcache]
    and the heap as they were. *)
Theorem HyphDict_init_fails :
  HyphDict_init [] = Raise ValueError ∧
  (∀ content,
     failed (decode_ascii (strip bytes_isspace (readline (readlines content))))
     → HyphDict_init content = Raise UnicodeDecodeError) ∧
  (∀ content charset line,
     declared_charset (readlines content) = Ok charset →
     line ∈ tail (readlines content) → failed (decode charset line) →
     failed (HyphDict_init content)) ∧
  (∀ content charset,
     declared_charset (readlines content) = Ok charset →
     read_patterns charset (tail (readlines content)) ∅ = Ok ∅ →
     HyphDict_init content = Raise ValueError) ∧
  (∀ (name : str) lang left_ right_ cache_ w content,
     name ≠ [] → files w name = Some content →
     cache_ = false ∨ hdcache w !! name = None →
     failed (HyphDict_init content) →
     ∃ e, Pyphen_init (Some name) lang left_ right_ cache_ w = (Raise e, w)).
Proof.
  split_and!.
  - unfold HyphDict_init. simpl. by rewrite max_key_length_empty.
  - intros content [e He]. unfold HyphDict_init, declared_charset.
    rewrite He. simpl. f_equal.
    unfold decode_ascii in He. destruct (forallb _ _); congruence.
  - intros content charset line Hcs Hin Hdec. unfold HyphDict_init.
    rewrite Hcs. simpl.
    destruct (read_patterns_undecodable charset _ ∅ line Hin Hdec)
      as [e ->].
    by exists e.
  - intros content charset Hcs Hread. unfold HyphDict_init.
    rewrite Hcs. simpl. rewrite Hread. simpl.
    by rewrite max_key_length_empty.
  - intros name lang left_ right_ cache_ w content Hname Hf Hmiss [e He].
    exists e. destruct name as [|c name]; [done|].
    unfold Pyphen_init. simpl. unfold attach, HyphDict_new.
    assert (negb cache_ || bool_decide (hdcache w !! (c :: name) = None)
            = true) as ->.
    { destruct Hmiss as [->|Hmiss]; [done|].
      rewrite bool_decide_eq_true_2 by done. apply orb_true_r. }
    by rewrite Hf, He.
Qed.

End ParserFailures.

Lemma HyphDict_init_fails_witness :
  @HyphDict_init rt [xff; x0a; x61; x31; x62; x0a] = Raise UnicodeDecodeError
  ∧ failed (@HyphDict_init rt
              (AsciiRuntime.file ["ascii"]%string ++ [x61; x31; xe9; x0a]))
  ∧ @HyphDict_init rt (AsciiRuntime.file ["ascii"; "% nothing"; "a0b"]%string)
    = Raise ValueError.
Proof.
  destruct (@HyphDict_init_fails rt)
    as (_ & Hcharset & Hline & Hempty & _).
  split_and!.
  - apply Hcharset. exists UnicodeDecodeError. vm_compute. reflexivity.
  - apply (Hline _ (lit "ascii") [x61; x31; xe9; x0a]).
    + vm_compute. reflexivity.
    + vm_compute. apply elem_of_cons. by left.
    + exists UnicodeDecodeError. vm_compute. reflexivity.
  - apply (Hempty _ (lit "ascii")); vm_compute; reflexivity.
Defined.

(** ** The worlds the module can reach

    The hypotheses of the properties of the queries hold in every world
    reached from the empty one by creating instances and calling their
    methods. *)

Lemma world_empty_ok fs : world_ok (world_empty fs) ∧ refs_ok (world_empty fs).
Proof. split; [constructor|apply map_Forall_empty]. Qed.

Section Reachable.
Context `{Runtime}.

Lemma HyphDict_init_cache content d :
  HyphDict_init content = Ok d → cache d = ∅.
Proof.
  unfold HyphDict_init.
  destruct (declared_charset _) as [charset|e]; [|done]. simpl.
  destruct (read_patterns _ _ ∅) as [pats|e]; [|done]. simpl.
  destruct (max_key_length pats) as [mlen|e]; [|done]. simpl.
  by intros [= <-].
Qed.

Lemma attach_ok name cache_ w r w' :
  attach name cache_ w = (r, w') → world_ok w → refs_ok w →
  world_ok w' ∧ refs_ok w' ∧
  (∀ l, r = Ok l → is_Some (heap w' !! l)) ∧
  (∀ l, is_Some (heap w !! l) → is_Some (heap w' !! l)).
Proof.
  intros Hat Hw Hr. unfold attach in Hat.
  destruct (negb cache_ || bool_decide (hdcache w !! name = None)) eqn:Hc.
  - unfold HyphDict_new in Hat.
    destruct (files w name) as [content|]; [|by simplify_eq/=].
    destruct (HyphDict_init content) as [d|e] eqn:Hd; [|by simplify_eq/=].
    simpl in Hat. rewrite lookup_insert_eq in Hat. simplify_eq/=.
    assert (Hgrow : ∀ l, is_Some (heap w !! l)
                         → is_Some ((heap w ++ [d]) !! l)).
    { intros l [d0 Hl]. exists d0. by apply lookup_app_l_Some. }
    split_and!.
    + apply Forall_app. split; [done|]. constructor; [|constructor].
      unfold cache_ok. rewrite (HyphDict_init_cache _ _ Hd).
      apply map_Forall_empty.
    + apply map_Forall_insert_2.
      * simpl. exists d. by rewrite lookup_app_r, Nat.sub_diag.
      * eapply map_Forall_impl; [exact Hr|]. intros ? l. apply Hgrow.
    + intros l [= <-]. exists d. simpl.
      by rewrite lookup_app_r, Nat.sub_diag.
    + exact Hgrow.
  - destruct (hdcache w !! name) as [l|] eqn:Hl; simplify_eq/=.
    + split_and!; [done..| |done]. intros ? [= <-]. by apply (Hr _ _ Hl).
    + by split_and!.
Qed.

Lemma Pyphen_init_ok filename lang left_ right_ cache_ w r w' :
  Pyphen_init filename lang left_ right_ cache_ w = (r, w') →
  world_ok w → refs_ok w →
  world_ok w' ∧ refs_ok w' ∧
  (∀ self, r = Ok self → instance_ok self w') ∧
  (∀ self, instance_ok self w → instance_ok self w').
Proof.
  intros Hinit Hw Hr. unfold Pyphen_init in Hinit.
  destruct (if negb (truthy filename) && truthy lang then _ else _)
    as [[[|c name]|]|e]; simplify_eq/=;
    try (split_and!; [done..| |done]; by intros ? [= <-] ? [=]).
  destruct (attach (c :: name) cache_ w) as [[l|e] w1] eqn:Hat;
    simplify_eq/=;
    destruct (attach_ok _ _ _ _ _ Hat Hw Hr) as (Hw1 & Hr1 & Hl & Hold).
  - split_and!; [done..| |].
    + intros ? [= <-] ? [= <-]. by apply Hl.
    + intros self Hself l0 Hl0. by apply Hold, Hself.
  - split_and!; [done..| |]; [done|].
    intros self Hself l0 Hl0. by apply Hold, Hself.
Qed.

Lemma Pyphen_positions_world self word w :
  world_ok w → refs_ok w →
  world_ok (Pyphen_positions self word w).2
  ∧ refs_ok (Pyphen_positions self word w).2
  ∧ ∀ p, instance_ok p w → instance_ok p (Pyphen_positions self word w).2.
Proof.
  intros Hw Hr. unfold Pyphen_positions, hd_positions.
  destruct (hd self) as [l|]; [|done].
  destruct (heap w !! l) as [d|] eqn:Hd; [|done].
  destruct (HyphDict_positions_ok d word) as [_ Hok].
  { unfold world_ok in Hw. rewrite Forall_lookup in Hw. by eapply Hw. }
  destruct (HyphDict_positions d word) as [pts d']. simpl in *.
  assert (Hkeep : ∀ l0, is_Some (heap w !! l0)
                        → is_Some (<[l := d']> (heap w) !! l0)).
  { intros l0 Hl0%lookup_lt_is_Some. apply lookup_lt_is_Some.
    by rewrite length_insert. }
  split_and!.
  - by apply Forall_insert.
  - eapply map_Forall_impl; [exact Hr|]. intros ? l0. apply Hkeep.
  - intros p Hp l0 Hl0. by apply Hkeep, Hp.
Qed.

Lemma queries_world self word width hyphen w :
  (Pyphen_iterate self word w).2 = (Pyphen_positions self word w).2
  ∧ (Pyphen_wrap self word width hyphen w).2
    = (Pyphen_positions self word w).2
  ∧ (Pyphen_inserted self word hyphen w).2
    = (Pyphen_positions self word w).2.
Proof.
  unfold Pyphen_wrap, Pyphen_iterate, Pyphen_inserted.
  destruct (Pyphen_positions self word w) as [[pts|e] w']; simpl;
    [|done].
  by destruct (yields word (rev pts)).
Qed.

End Reachable.

(** * Further properties *)

(** ** The window of the scan *)

Lemma range_split a b c :
  (a ≤ b)%nat → (b ≤ c)%nat → range a c = range a b ++ range b c.
Proof.
  intros Hab Hbc. unfold range.
  replace (c - a)%nat with ((b - a) + (c - b))%nat by lia.
  rewrite seq_app. do 2 f_equal. lia.
Qed.

Lemma elem_of_range a b j : j ∈ range a b ↔ (a ≤ j < b)%nat.
Proof. unfold range. rewrite elem_of_seq. lia. Qed.

Lemma matches_i_window pats mlen mlen' pw i :
  keys_within pats mlen → (mlen ≤ mlen')%nat → (i ≤ length pw)%nat →
  matches_i pats mlen' pw i = matches_i pats mlen pw i.
Proof.
  intros Hkeys Hle Hi. unfold matches_i.
  rewrite (range_split (i + 1) (Nat.min (i + mlen) (length pw) + 1)
             (Nat.min (i + mlen') (length pw) + 1)) by lia.
  rewrite omap_app.
  match goal with |- _ ++ ?extra = _ => destruct extra as [|m ms] eqn:He end;
    [apply app_nil_r|].
  assert (Hm : m ∈ m :: ms) by (apply elem_of_cons; by left).
  rewrite <- He in Hm. apply list_elem_of_omap in Hm as (j & Hj & Hkey).
  apply elem_of_range in Hj.
  destruct (pats !! take (j - i) (drop i pw)) as [p|] eqn:Hp; [|done].
  apply Hkeys in Hp. rewrite length_take, length_drop in Hp. lia.
Qed.

Lemma matches_window pats mlen mlen' pw :
  keys_within pats mlen → (mlen ≤ mlen')%nat →
  matches pats mlen' pw = matches pats mlen pw.
Proof.
  intros Hkeys Hle. unfold matches.
  assert (Hall : Forall (fun i => (i ≤ length pw)%nat)
                   (range 0 (length pw - 1))).
  { apply Forall_forall. intros i Hi%elem_of_range. lia. }
  induction Hall as [|i is_ Hi _ IH]; simpl; [done|].
  by rewrite IH, (matches_i_window pats mlen mlen').
Qed.

Lemma max_key_length_bound pats mlen :
  max_key_length pats = Ok mlen →
  keys_within pats mlen ∧ ∃ key, is_Some (pats !! key) ∧ length key = mlen.
Proof.
  intros Hmax.
  assert (mlen = max_list (map (fun kv => length kv.1) (map_to_list pats))
          ∧ map (fun kv => length kv.1) (map_to_list pats) ≠ [])
    as [-> Hne].
  { unfold max_key_length in Hmax.
    destruct (map_to_list pats) as [|kv kvs]; [done|].
    by injection Hmax as <-. }
  clear Hmax. split.
  - intros key pattern Hkey%elem_of_map_to_list.
    apply max_list_elem_of_le.
    apply (list_elem_of_fmap_2 (fun kv => length kv.1) _ (key, pattern) Hkey).
  - apply max_list_elem_of in Hne.
    apply list_elem_of_fmap in Hne as ([key pattern] & Hmax & Hin).
    apply elem_of_map_to_list in Hin. exists key. by split; [eexists|].
Qed.

Lemma points_from_zeros i n : points_from i (replicate n (int 0)) = [].
Proof. revert i. induction n as [|n IH]; intros i; simpl; [done|apply IH]. Qed.

Lemma matches_none pats mlen pw :
  (∀ l1 key l2, key ≠ [] → pw = l1 ++ key ++ l2 → pats !! key = None) →
  matches pats mlen pw = [].
Proof.
  intros Hnone. unfold matches.
  destruct (flat_map _ _) as [|m ms] eqn:He; [done|].
  assert (Hm : m ∈ m :: ms) by (apply elem_of_cons; by left).
  rewrite <- He, list_elem_of_In, in_flat_map in Hm.
  destruct Hm as (i & Hi & Hm). rewrite <- !list_elem_of_In in *.
  apply elem_of_range in Hi.
  apply list_elem_of_omap in Hm as (j & Hj%elem_of_range & Hkey).
  rewrite (Hnone (take i pw) (take (j - i) (drop i pw))
             (drop (j - i) (drop i pw))) in Hkey; [done| |].
  - intros Hnil%(f_equal length).
    rewrite length_take, length_drop in Hnil. simpl in Hnil. lia.
  - by rewrite !take_drop.
Qed.

(** X1.  The table of a parsed dictionary has no key longer than
    [maxlen], and a key of that length; looking up longer substrings
    than [maxlen], as a scan with a wider window does, finds the same
    break positions. *)
Theorem scan_window_complete `{Runtime} (content : bytes) (d : HyphDict)
    (word : str) (mlen' : nat) :
  HyphDict_init content = Ok d → (maxlen d ≤ mlen')%nat →
  keys_within (patterns d) (maxlen d)
  ∧ (∃ key, is_Some (patterns d !! key) ∧ length key = maxlen d)
  ∧ find_positions (patterns d) mlen' word
    = find_positions (patterns d) (maxlen d) word.
Proof.
  intros Hinit Hle.
  assert (Hmax : max_key_length (patterns d) = Ok (maxlen d)).
  { unfold HyphDict_init in Hinit.
    destruct (declared_charset _) as [charset|e]; [|done]. simpl in Hinit.
    destruct (read_patterns _ _ ∅) as [pats|e]; [|done]. simpl in Hinit.
    destruct (max_key_length pats) as [mlen|e] eqn:Hm; [|done].
    by injection Hinit as <-. }
  destruct (max_key_length_bound _ _ Hmax) as [Hkeys Hex].
  split_and!; [done..|].
  unfold find_positions. by rewrite !scan_matches, (matches_window _ (maxlen d)).
Qed.

(** X2.  A word of which no substring, the boundary dots included, is
    a key has no break position. *)
Theorem no_key_no_break (pats : gmap str Pattern) (mlen : nat) (word : str) :
  (∀ l1 key l2, key ≠ [] → pointed word = l1 ++ key ++ l2
                → pats !! key = None) →
  find_positions pats mlen word = [].
Proof.
  intros Hnone. unfold find_positions, points.
  rewrite scan_matches, matches_none by done. apply points_from_zeros.
Qed.

Lemma scan_window_complete_witness :
  @HyphDict_init rt dic = Ok dic_table ∧ (maxlen dic_table ≤ 10)%nat
  ∧ find_positions (patterns dic_table) 10 (lit "eexyzee")
    = find_positions (patterns dic_table) 3 (lit "eexyzee").
Proof.
  assert (Hd : @HyphDict_init rt dic = Ok dic_table)
    by (vm_compute; reflexivity).
  assert (Hle : (maxlen dic_table ≤ 10)%nat) by (simpl; lia).
  split_and!; [exact Hd|exact Hle|].
  apply (@scan_window_complete rt dic dic_table (lit "eexyzee") 10 Hd Hle).
Defined.

Lemma no_key_no_break_witness :
  (∀ l1 key l2, key ≠ [] → pointed (lit "q") = l1 ++ key ++ l2
                → dic_patterns !! key = None)
  ∧ find_positions dic_patterns 3 (lit "q") = [].
Proof.
  assert (Hnone : ∀ l1 key l2, key ≠ [] → pointed (lit "q") = l1 ++ key ++ l2
                    → dic_patterns !! key = None).
  { intros l1 key l2 Hne Heq. vm_compute in Heq.
    destruct l1 as [|? [|? [|? [|? ?]]]];
      destruct key as [|? [|? [|? [|? ?]]]];
      simplify_eq/=; vm_compute; reflexivity. }
  split; [exact Hnone|].
  apply (no_key_no_break dic_patterns 3 (lit "q") Hnone).
Defined.

(** ** Queries on words *)

Lemma filter_none {A} (P : A → Prop) `{!∀ x, Decision (P x)} (l : list A) :
  (∀ x, x ∈ l → ¬ P x) → filter P l = [].
Proof.
  induction l as [|x l IH]; intros Hnone; [done|].
  rewrite filter_cons, decide_False by (apply Hnone, elem_of_cons; by left).
  apply IH. intros y Hy. apply Hnone, elem_of_cons. by right.
Qed.

Lemma concat_singletons (word : str) : concat (map (fun c => [c]) word) = word.
Proof. induction word as [|c rest IH]; simpl; [done|by rewrite IH]. Qed.

Section WordQueries.
Context `{Runtime}.

(** The queries of an instance with a table on a plain table. *)
Lemma plain_iterate (self : Pyphen) (word : str) (w : World) l d :
  world_ok w → hd self = Some l → heap w !! l = Some d →
  plain_table (patterns d) →
  ∃ pts w',
    Pyphen_positions self word w = (Ok pts, w') ∧
    Pyphen_iterate self word w
    = ((map (plain_split word) (rev pts), None), w') ∧
    Forall (fun p => left self ≤ val p
                     ∧ val p ≤ Z.of_nat (length word) - right self) pts ∧
    ascending pts.
Proof.
  intros Hw Hl Hd Hplain.
  destruct (Pyphen_positions_kept self word w l d Hw Hl Hd)
    as (w' & Hcall & _).
  destruct (margin_filter (left self)
              (Z.of_nat (length word) - right self)
              (find_positions (patterns d) (maxlen d) (str_lower word))
              (find_positions_ascending _ _ _)) as (Hin & Hmem & Hasc).
  eexists _, w'. split_and!; [exact Hcall| |exact Hin|exact Hasc].
  unfold Pyphen_iterate. rewrite Hcall. rewrite yields_plain; [done|].
  apply Forall_forall. intros p Hp%elem_of_rev. apply Hmem in Hp as [Hp _].
  pose proof (find_positions_plain _ (maxlen d) (str_lower word) Hplain)
    as Hall.
  rewrite Forall_forall in Hall. by apply Hall.
Qed.

(** X3.  A word shorter than the two margins together has no break
    position: [iterate] yields nothing, [wrap] returns [None] and
    [inserted] returns the word. *)
Theorem short_word_unbroken (self : Pyphen) (word hyphen : str) (width : Z)
    (w : World) l d :
  hd self = Some l → heap w !! l = Some d →
  Z.of_nat (length word) < left self + right self →
  ∃ w',
    Pyphen_positions self word w = (Ok [], w') ∧
    Pyphen_iterate self word w = (([], None), w') ∧
    Pyphen_wrap self word width hyphen w = (Ok None, w') ∧
    Pyphen_inserted self word hyphen w = (Ok word, w').
Proof.
  intros Hl Hd Hshort.
  assert (Hpos : ∃ w', Pyphen_positions self word w = (Ok [], w')).
  { unfold Pyphen_positions, hd_positions. rewrite Hl, Hd.
    destruct (HyphDict_positions d word) as [pts d'].
    eexists. f_equal. f_equal. apply filter_none. intros p _. lia. }
  destruct Hpos as [w' Hpos]. exists w'.
  unfold Pyphen_wrap, Pyphen_iterate, Pyphen_inserted. rewrite Hpos. simpl.
  by rewrite concat_singletons.
Qed.

(** X4.  With a table without nonstandard entries and margins that are
    not negative, the two parts of every pair of [iterate] make up the
    word, the first part has at least [left] characters and the second
    at least [right]. *)
Theorem iterate_parts_make_word (self : Pyphen) (word : str) (w : World) l d :
  world_ok w → hd self = Some l → heap w !! l = Some d →
  plain_table (patterns d) → 0 ≤ left self → 0 ≤ right self →
  ∃ items w',
    Pyphen_iterate self word w = ((items, None), w') ∧
    Forall (fun item => item.1 ++ item.2 = word
                        ∧ left self ≤ Z.of_nat (length item.1)
                        ∧ right self ≤ Z.of_nat (length item.2)) items.
Proof.
  intros Hw Hl Hd Hplain Hleft Hright.
  destruct (plain_iterate self word w l d Hw Hl Hd Hplain)
    as (pts & w' & _ & Hit & Hin & _).
  eexists _, w'. split; [exact Hit|].
  apply Forall_forall. intros item (p & -> & Hp%elem_of_rev)%list_elem_of_fmap.
  rewrite Forall_forall in Hin. specialize (Hin p Hp). simpl in Hin.
  unfold plain_split, slice_to, slice_from. simpl.
  rewrite adjust_inside by lia.
  rewrite take_drop, length_take, length_drop. split_and!; [done|lia..].
Qed.

(** X5.  With a table without nonstandard entries and margins that are
    not negative, [wrap] splits the word at its greatest break position
    [p] with [p + len(hyphen) <= width], and returns [None] when no
    break position is that small. *)
Theorem wrap_greatest_fit (self : Pyphen) (word : str) (width : Z)
    (hyphen : str) (w : World) l d :
  world_ok w → hd self = Some l → heap w !! l = Some d →
  plain_table (patterns d) → 0 ≤ left self → 0 ≤ right self →
  ∃ pts w',
    Pyphen_positions self word w = (Ok pts, w') ∧
    (∀ p, p ∈ pts → val p + Z.of_nat (length hyphen) ≤ width →
       (∀ q, q ∈ pts → val q + Z.of_nat (length hyphen) ≤ width
             → val q ≤ val p) →
       Pyphen_wrap self word width hyphen w
       = (Ok (Some (take (Z.to_nat (val p)) word ++ hyphen,
                    drop (Z.to_nat (val p)) word)), w')) ∧
    ((∀ p, p ∈ pts → width < val p + Z.of_nat (length hyphen)) →
     Pyphen_wrap self word width hyphen w = (Ok None, w')).
Proof.
  intros Hw Hl Hd Hplain Hleft Hright.
  destruct (plain_iterate self word w l d Hw Hl Hd Hplain)
    as (pts & w' & Hpos & Hit & Hin & Hasc).
  exists pts, w'. split; [exact Hpos|].
  assert (Hlen : ∀ q, q ∈ pts →
            Z.of_nat (length (plain_split word q).1) = val q).
  { intros q Hq. rewrite Forall_forall in Hin. specialize (Hin q Hq).
    simpl in Hin. apply slice_to_length. lia. }
  unfold Pyphen_wrap. rewrite Hit. split.
  - intros p Hp Hfit Hmax. f_equal.
    assert (Hp' : p ∈ rev pts) by (rewrite list_elem_of_In in *; by apply in_rev in Hp).
    apply list_elem_of_split in Hp' as (pre & post & Hsplit).
    rewrite Hsplit, map_app. simpl.
    pose proof (ascending_rev pts Hasc) as Hdesc. rewrite Hsplit in Hdesc.
    apply StronglySorted_app in Hdesc as (Hpre & _ & _).
    change (plain_split word p :: map (plain_split word) post)
      with ((slice_to word (val p), slice_from word (val p))
            :: map (plain_split word) post).
    rewrite wrap_loop_first.
    + unfold slice_to, slice_from. rewrite Forall_forall in Hin.
      specialize (Hin p Hp). simpl in Hin. by rewrite adjust_inside by lia.
    + apply Forall_forall.
      intros item (q & -> & Hq)%list_elem_of_fmap. unfold too_long.
      assert (Hq' : q ∈ pts).
      { apply elem_of_rev. rewrite Hsplit. apply elem_of_app. by left. }
      rewrite (Hlen q Hq').
      assert (val p < val q).
      { apply (Hpre q p Hq). apply elem_of_cons. by left. }
      destruct (decide (val q + Z.of_nat (length hyphen) ≤ width)) as [Hf|];
        [|lia].
      specialize (Hmax q Hq' Hf). lia.
    + pose proof (Hlen p Hp) as Hlp. unfold plain_split in Hlp.
      simpl in Hlp. lia.
  - intros Hnone. f_equal. rewrite wrap_loop_none; [done|].
    apply Forall_forall.
    intros item (q & -> & Hq%elem_of_rev)%list_elem_of_fmap.
    unfold too_long. rewrite (Hlen q Hq). specialize (Hnone q Hq). lia.
Qed.

End WordQueries.

Lemma short_word_unbroken_witness :
  hd hyphenator = Some 0%nat ∧ heap world1 !! 0%nat = Some dic_table
  ∧ Z.of_nat (length (lit "xyz")) < left hyphenator + right hyphenator
  ∧ ∃ w', @Pyphen_positions rt (mkPyphen 0 0 (Some 0%nat)) (lit "xyz") world1
          = (Ok [int 1; int 3], w')
        ∧ @Pyphen_inserted rt hyphenator (lit "xyz") (lit "-") world1
          = (Ok (lit "xyz"), w').
Proof.
  assert (Hd : heap world1 !! 0%nat = Some dic_table) by reflexivity.
  assert (Hs : Z.of_nat (length (lit "xyz")) < 2 + 2) by (simpl; lia).
  split_and!; [reflexivity|exact Hd|exact Hs|].
  destruct (@short_word_unbroken rt hyphenator (lit "xyz") (lit "-") 0
              world1 0%nat dic_table eq_refl Hd Hs)
    as (w' & Hpos & _ & _ & Hins).
  exists w'. split; [|exact Hins].
  vm_compute in Hpos. injection Hpos as <-. vm_compute. reflexivity.
Defined.

Lemma iterate_parts_make_word_witness :
  world_ok world1 ∧ hd hyphenator = Some 0%nat
  ∧ heap world1 !! 0%nat = Some dic_table
  ∧ plain_table (patterns dic_table)
  ∧ 0 ≤ left hyphenator ∧ 0 ≤ right hyphenator
  ∧ ∃ items w',
      @Pyphen_iterate rt hyphenator (lit "eexyzee") world1
      = ((items, None), w')
      ∧ length items = 2%nat
      ∧ Forall (fun item => item.1 ++ item.2 = lit "eexyzee") items.
Proof.
  assert (Hw : world_ok world1)
    by (constructor; [apply map_Forall_empty|constructor]).
  assert (Hd : heap world1 !! 0%nat = Some dic_table) by reflexivity.
  assert (H2 : 0 ≤ 2) by lia.
  split_and!; [exact Hw|reflexivity|exact Hd|exact dic_plain|exact H2..|].
  destruct (@iterate_parts_make_word rt hyphenator (lit "eexyzee") world1
              0%nat dic_table Hw eq_refl Hd dic_plain H2 H2)
    as (items & w' & Hit & Hall).
  exists items, w'. split_and!; [exact Hit| |].
  - vm_compute in Hit. by injection Hit as <- _.
  - eapply Forall_impl; [exact Hall|]. by intros item (Hitem & _).
Defined.

Lemma wrap_greatest_fit_witness :
  world_ok world1 ∧ hd hyphenator = Some 0%nat
  ∧ heap world1 !! 0%nat = Some dic_table
  ∧ plain_table (patterns dic_table)
  ∧ 0 ≤ left hyphenator ∧ 0 ≤ right hyphenator
  ∧ ∃ w', @Pyphen_wrap rt hyphenator (lit "eexyzee") 5 (lit "-") world1
          = (Ok (Some (lit "eex-", lit "yzee")), w').
Proof.
  assert (Hw : world_ok world1)
    by (constructor; [apply map_Forall_empty|constructor]).
  assert (Hd : heap world1 !! 0%nat = Some dic_table) by reflexivity.
  assert (H2 : 0 ≤ 2) by lia.
  split_and!; [exact Hw|reflexivity|exact Hd|exact dic_plain|exact H2..|].
  destruct (@wrap_greatest_fit rt hyphenator (lit "eexyzee") 5 (lit "-")
              world1 0%nat dic_table Hw eq_refl Hd dic_plain H2 H2)
    as (pts & w' & Hpos & Hfit & _).
  vm_compute in Hpos. injection Hpos as <- _.
  exists w'. apply (Hfit (int 3)).
  - apply elem_of_cons. by left.
  - simpl. lia.
  - intros q [->|Hq]%elem_of_cons; [simpl; lia|].
    apply list_elem_of_singleton in Hq as ->. simpl. lia.
Defined.

Section Frame.
Context `{Runtime}.

(** X6.  A query changes nothing but the word cache of the instance's
    own table, and there only the entry of the lowercased word: files,
    [hdcache], the other tables, every pattern table and [maxlen] stay
    as they are; [iterate], [wrap] and [inserted] change what
    [positions] changes. *)
Theorem queries_touch_word_cache_only (self : Pyphen) (word hyphen : str)
    (width : Z) (w : World) :
  (Pyphen_iterate self word w).2 = (Pyphen_positions self word w).2
  ∧ (Pyphen_wrap self word width hyphen w).2
    = (Pyphen_positions self word w).2
  ∧ (Pyphen_inserted self word hyphen w).2
    = (Pyphen_positions self word w).2
  ∧ files (Pyphen_positions self word w).2 = files w
  ∧ hdcache (Pyphen_positions self word w).2 = hdcache w
  ∧ length (heap (Pyphen_positions self word w).2) = length (heap w)
  ∧ ∀ l d, heap w !! l = Some d →
      ∃ d', heap (Pyphen_positions self word w).2 !! l = Some d'
        ∧ patterns d' = patterns d ∧ maxlen d' = maxlen d
        ∧ (hd self ≠ Some l → d' = d)
        ∧ ∀ other, other ≠ str_lower word
                   → cache d' !! other = cache d !! other.
Proof.
  destruct (queries_world self word width hyphen w) as (Hi & Hwr & Hins).
  split_and!; [done..| | | |].
  - unfold Pyphen_positions, hd_positions.
    destruct (hd self) as [l|]; [|done].
    destruct (heap w !! l); [|done]. by destruct (HyphDict_positions _ _).
  - unfold Pyphen_positions, hd_positions.
    destruct (hd self) as [l|]; [|done].
    destruct (heap w !! l); [|done]. by destruct (HyphDict_positions _ _).
  - unfold Pyphen_positions, hd_positions.
    destruct (hd self) as [l|]; [|done].
    destruct (heap w !! l); [|done].
    destruct (HyphDict_positions _ _). simpl. apply length_insert.
  - intros l d Hd. unfold Pyphen_positions, hd_positions.
    destruct (hd self) as [l0|]; [|by exists d].
    destruct (heap w !! l0) as [d0|] eqn:Hd0; [|by exists d].
    destruct (HyphDict_positions d0 word) as [pts d0'] eqn:Hcall. simpl.
    destruct (decide (l0 = l)) as [->|Hne].
    + assert (d0 = d) as -> by congruence. exists d0'.
      rewrite list_lookup_insert_eq by (by eapply lookup_lt_Some).
      unfold HyphDict_positions in Hcall.
      destruct (cache d !! str_lower word); simplify_eq/=;
        split_and!; try done.
      intros other Hother. by rewrite lookup_insert_ne.
    + exists d. rewrite list_lookup_insert_ne by done. by split_and!.
Qed.

(** X7.  A second call of [positions] with the same word, through the
    same instance or another one that shares the table, finds the word
    in the cache: it leaves the world as the first call left it, and
    through the same instance it returns the same positions. *)
Theorem positions_twice (self self2 : Pyphen) (word word2 : str) (w : World) :
  hd self2 = hd self → str_lower word2 = str_lower word →
  ∃ r w',
    Pyphen_positions self word w = (r, w') ∧
    (Pyphen_positions self2 word2 w').2 = w' ∧
    Pyphen_positions self word w' = (r, w').
Proof.
  intros Hhd Hlow.
  assert (Hsame : ∀ (l : loc) d, heap w !! l = Some d →
            <[l := (HyphDict_positions d word).2]>
              (<[l := (HyphDict_positions d word).2]> (heap w))
            = <[l := (HyphDict_positions d word).2]> (heap w)).
  { intros l d Hd. apply list_insert_id.
    apply list_lookup_insert_eq. by eapply lookup_lt_Some. }
  unfold Pyphen_positions, hd_positions. rewrite Hhd.
  destruct (hd self) as [l|]; [|by eexists _, _].
  destruct (heap w !! l) as [d|] eqn:Hd; [|eexists _, _; by rewrite Hd].
  pose proof (HyphDict_positions_stored d word) as Hst.
  specialize (Hsame l d Hd).
  destruct (HyphDict_positions d word) as [pts d'] eqn:Hcall.
  simpl in *. eexists _, _. split; [done|]. simpl.
  rewrite list_lookup_insert_eq by (by eapply lookup_lt_Some).
  rewrite (HyphDict_positions_hit d' word2 pts) by (by rewrite Hlow).
  rewrite (HyphDict_positions_hit d' word pts) by done.
  by rewrite Hsame.
Qed.

End Frame.

Lemma positions_twice_witness :
  hd (mkPyphen 0 0 (Some 0%nat)) = hd hyphenator
  ∧ map AsciiRuntime.lower_char (lit "EEXYZEE")
    = map AsciiRuntime.lower_char (lit "eexyzee")
  ∧ ∃ w', @Pyphen_positions rt hyphenator (lit "eexyzee") world1
          = (Ok [int 3; int 5], w')
        ∧ @Pyphen_positions rt (mkPyphen 0 0 (Some 0%nat)) (lit "EEXYZEE") w'
          = (Ok [int 1; int 3; int 5; int 6], w').
Proof.
  assert (Hlow : map AsciiRuntime.lower_char (lit "EEXYZEE")
                 = map AsciiRuntime.lower_char (lit "eexyzee"))
    by (vm_compute; reflexivity).
  split_and!; [reflexivity|exact Hlow|].
  destruct (@positions_twice rt hyphenator (mkPyphen 0 0 (Some 0%nat))
              (lit "eexyzee") (lit "EEXYZEE") world1 eq_refl Hlow)
    as (r & w' & Hcall & Hkeep & _).
  exists w'. split.
  - rewrite Hcall. f_equal. vm_compute in Hcall. by injection Hcall as <- _.
  - rewrite <- Hkeep at 2.
    destruct (@Pyphen_positions rt (mkPyphen 0 0 (Some 0%nat))
                (lit "EEXYZEE") w') as [r2 w2] eqn:Hcall2.
    simpl. f_equal.
    vm_compute in Hcall. injection Hcall as _ <-.
    vm_compute in Hcall2. by injection Hcall2 as <- _.
Defined.

(** ** Creating instances *)

Section Creation.
Context `{Runtime}.

Lemma attach_frame name cache_ w r w' :
  attach name cache_ w = (r, w') →
  files w' = files w
  ∧ (∃ extra, heap w' = heap w ++ extra ∧ (length extra ≤ 1)%nat)
  ∧ (∀ other, other ≠ name → hdcache w' !! other = hdcache w !! other)
  ∧ (∀ e, r = Raise e → w' = w)
  ∧ (∀ l, r = Ok l → hdcache w' !! name = Some l).
Proof.
  assert (Hsame : ∃ extra, heap w = heap w ++ extra ∧ (length extra ≤ 1)%nat).
  { exists []. rewrite app_nil_r. split; [done|simpl; lia]. }
  unfold attach, HyphDict_new. intros Hat.
  destruct (negb cache_ || bool_decide (hdcache w !! name = None)).
  - destruct (files w name) as [content|].
    + destruct (HyphDict_init content) as [d|e].
      * simpl in Hat. rewrite lookup_insert_eq in Hat. simplify_eq/=.
        split_and!; [done| | |done|].
        -- exists [d]. split; [done|simpl; lia].
        -- intros other Hother. by rewrite lookup_insert_ne.
        -- intros l [= <-]. apply lookup_insert_eq.
      * simplify_eq/=. by split_and!.
    + simplify_eq/=. by split_and!.
  - destruct (hdcache w !! name) as [l|] eqn:Hl; simplify_eq/=.
    + split_and!; [done..|]. by intros ? [= <-].
    + by split_and!.
Qed.

(** X8.  Creating an instance never touches the files, never changes or
    removes a table on the heap (it adds at most one), and changes
    [hdcache] under at most one name; a creation that raises leaves the
    world exactly as it was. *)
Theorem Pyphen_init_frame (filename lang : option str) (left_ right_ : Z)
    (cache_ : bool) (w : World) :
  ∃ r w',
    Pyphen_init filename lang left_ right_ cache_ w = (r, w') ∧
    files w' = files w ∧
    (∃ extra, heap w' = heap w ++ extra ∧ (length extra ≤ 1)%nat) ∧
    (∃ name, ∀ other, other ≠ name
                      → hdcache w' !! other = hdcache w !! other) ∧
    (∀ e, r = Raise e → w' = w).
Proof.
  assert (Hsame : ∃ extra, heap w = heap w ++ extra ∧ (length extra ≤ 1)%nat).
  { exists []. rewrite app_nil_r. split; [done|simpl; lia]. }
  assert (Hnone : ∃ name : str, ∀ other, other ≠ name
                    → hdcache w !! other = hdcache w !! other)
    by (by exists []).
  unfold Pyphen_init.
  destruct (if negb (truthy filename) && truthy lang then _ else _)
    as [[[|c name]|]|e].
  - by eexists _, _.
  - destruct (attach (c :: name) cache_ w) as [r w'] eqn:Hat.
    destruct (attach_frame _ _ _ _ _ Hat) as (Hf & Hh & Hc & Hr & _).
    destruct r as [l|e]; eexists _, _; (split; [done|]).
    + split_and!; [done|done|by exists (c :: name)|done].
    + split_and!; [done|done|by exists (c :: name)|].
      intros e0 [= <-]. by apply (Hr e).
  - by eexists _, _.
  - by eexists _, _.
Qed.

Lemma attach_cached_keeps (filename : str) (w : World) key (l : loc) :
  hdcache w !! key = Some l →
  hdcache (attach filename true w).2 !! key = Some l.
Proof.
  intros Hkey. destruct (decide (key = filename)) as [->|Hne].
  - by rewrite (attach_cached filename w l).
  - destruct (attach filename true w) as [r w'] eqn:Hat.
    destruct (attach_frame _ _ _ _ _ Hat) as (_ & _ & Hother & _).
    simpl. by rewrite Hother.
Qed.

Lemma Pyphen_init_cached_keeps (filename lang : option str)
    (left_ right_ : Z) (w : World) key (l : loc) :
  hdcache w !! key = Some l →
  hdcache (Pyphen_init filename lang left_ right_ true w).2 !! key = Some l.
Proof.
  intros Hkey. unfold Pyphen_init.
  destruct (if negb (truthy filename) && truthy lang then _ else _)
    as [[[|c name]|]|e]; try done.
  pose proof (attach_cached_keeps (c :: name) w key l Hkey) as Hkeep.
  by destruct (attach (c :: name) true w) as [[l'|e] w'].
Qed.

Lemma queries_hdcache (self : Pyphen) (word hyphen : str) (width : Z)
    (w : World) :
  hdcache (Pyphen_positions self word w).2 = hdcache w
  ∧ hdcache (Pyphen_iterate self word w).2 = hdcache w
  ∧ hdcache (Pyphen_wrap self word width hyphen w).2 = hdcache w
  ∧ hdcache (Pyphen_inserted self word hyphen w).2 = hdcache w.
Proof.
  destruct (queries_world self word width hyphen w) as (-> & -> & ->).
  assert (Hpos : hdcache (Pyphen_positions self word w).2 = hdcache w).
  { unfold Pyphen_positions, hd_positions.
    destruct (hd self) as [l|]; [|done].
    destruct (heap w !! l); [|done]. by destruct (HyphDict_positions _ _). }
  by split_and!.
Qed.

(** X9.  After an instance was created for a file name, [hdcache] holds
    its table under that name.  From any world in which [hdcache] still
    holds that table under the name, creating an instance for the name
    with the cache enabled gives it the same table and changes nothing,
    without opening the file, whatever the files and the other tables
    are by then.  The entry is still there after every query and after
    every creation with the cache enabled, for whatever file or
    language. *)
Theorem cached_table_is_shared (name : str) (lang : option str)
    (left_ right_ : Z) (cache_ : bool) (w w' : World) (self : Pyphen) :
  name ≠ [] →
  Pyphen_init (Some name) lang left_ right_ cache_ w = (Ok self, w') →
  (∃ l, hd self = Some l ∧ hdcache w' !! name = Some l) ∧
  left self = left_ ∧ right self = right_ ∧
  (∀ w2 lang2 left2 right2,
     hdcache w2 !! name = hdcache w' !! name →
     Pyphen_init (Some name) lang2 left2 right2 true w2
     = (Ok (mkPyphen left2 right2 (hd self)), w2)) ∧
  (∀ w2 filename2 lang2 left2 right2,
     hdcache w2 !! name = hdcache w' !! name →
     hdcache (Pyphen_init filename2 lang2 left2 right2 true w2).2 !! name
     = hdcache w' !! name) ∧
  (∀ w2 self2 word hyphen width,
     hdcache w2 !! name = hdcache w' !! name →
     hdcache (Pyphen_positions self2 word w2).2 !! name
     = hdcache w' !! name
     ∧ hdcache (Pyphen_iterate self2 word w2).2 !! name
       = hdcache w' !! name
     ∧ hdcache (Pyphen_wrap self2 word width hyphen w2).2 !! name
       = hdcache w' !! name
     ∧ hdcache (Pyphen_inserted self2 word hyphen w2).2 !! name
       = hdcache w' !! name).
Proof.
  intros Hname Hinit. destruct name as [|c name]; [done|].
  unfold Pyphen_init in Hinit. simpl in Hinit.
  destruct (attach (c :: name) cache_ w) as [[l|e] w1] eqn:Hat;
    [|done].
  injection Hinit as <- <-.
  destruct (attach_frame _ _ _ _ _ Hat) as (_ & _ & _ & _ & Hl).
  specialize (Hl l eq_refl). rewrite Hl.
  split_and!; [by exists l|done..| | |].
  - intros w2 lang2 left2 right2 Hsame. unfold Pyphen_init. simpl.
    by rewrite (attach_cached (c :: name) w2 l).
  - intros w2 filename2 lang2 left2 right2 Hsame.
    by apply Pyphen_init_cached_keeps.
  - intros w2 self2 word hyphen width Hsame.
    destruct (queries_hdcache self2 word hyphen width w2)
      as (-> & -> & -> & ->).
    by split_and!.
Qed.

(** X10.  A file name given to the constructor is used whatever [lang]
    is; without a file name, [lang] stands for the file its fallback
    language names in [LANGUAGES], and the constructor raises
    [KeyError], leaving the world as it was, when there is no fallback
    language. *)
Theorem Pyphen_init_resolves_lang (left_ right_ : Z) (cache_ : bool)
    (w : World) :
  (∀ name lang, name ≠ [] →
     Pyphen_init (Some name) lang left_ right_ cache_ w
     = Pyphen_init (Some name) None left_ right_ cache_ w) ∧
  (∀ filename lang language path,
     truthy filename = false → lang ≠ [] →
     language_fallback lang = Ok language →
     LANGUAGES !! language = Some path →
     Pyphen_init filename (Some lang) left_ right_ cache_ w
     = Pyphen_init (Some path) None left_ right_ cache_ w) ∧
  (∀ filename lang,
     truthy filename = false → lang ≠ [] →
     failed (language_fallback lang) →
     Pyphen_init filename (Some lang) left_ right_ cache_ w
     = (Raise KeyError, w)).
Proof.
  split_and!.
  - intros [|c name] lang Hname; [done|]. by destruct lang as [[|? ?]|].
  - intros filename [|c lang] language path Hf Hlang Hfb Hpath; [done|].
    unfold Pyphen_init. rewrite Hf. simpl. rewrite Hfb. simpl.
    rewrite Hpath. by destruct path.
  - intros filename [|c lang] Hf Hlang [e Hfb]; [done|].
    unfold Pyphen_init. rewrite Hf. simpl. rewrite Hfb. simpl.
    f_equal. f_equal.
    unfold language_fallback in Hfb.
    revert Hfb. generalize (rev (split "_" (replace "-" (lit "_") (c :: lang)))).
    intros parts. induction parts as [|p parts IH]; simpl; [congruence|].
    case_decide; [done|]. apply IH.
Qed.

End Creation.

Lemma cached_table_is_shared_witness :
  dic_name ≠ []
  ∧ @Pyphen_init rt (Some dic_name) None 2 2 true world0
    = (Ok hyphenator, world1)
  ∧ @Pyphen_init rt (Some dic_name) None 1 1 true
      (@Pyphen_inserted rt hyphenator (lit "eexyzee") (lit "-")
         (mkWorld (fun _ => None) (hdcache world1) (heap world1))).2
    = (Ok (mkPyphen 1 1 (Some 0%nat)),
       (@Pyphen_inserted rt hyphenator (lit "eexyzee") (lit "-")
          (mkWorld (fun _ => None) (hdcache world1) (heap world1))).2).
Proof.
  assert (Hn : dic_name ≠ []) by discriminate.
  assert (Hc : @Pyphen_init rt (Some dic_name) None 2 2 true world0
               = (Ok hyphenator, world1)) by (vm_compute; reflexivity).
  split_and!; [exact Hn|exact Hc|].
  destruct (@cached_table_is_shared rt dic_name None 2 2 true world0 world1
              hyphenator Hn Hc) as (_ & _ & _ & Hshare & _ & Hquery).
  apply (Hshare _ None 1 1).
  apply (Hquery (mkWorld (fun _ => None) (hdcache world1) (heap world1))
           hyphenator (lit "eexyzee") (lit "-") 0).
  reflexivity.
Defined.

(** ** The tokens of a pattern *)

Lemma parse_text_pair s :
  concat (map token_text (parse s)) = s
  ∧ ∀ c, concat (map token_text (parse (c :: s))) = c :: s.
Proof.
  induction s as [|c2 rest2 [IH IHc]].
  - split; [done|]. intros c. cbn [parse]. by destruct (digit c).
  - split; [apply IHc|]. intros c. specialize (IHc c2).
    cbn [parse] in *. destruct (digit c) as [d|].
    + destruct (digit c2) as [d2|]; simpl.
      * by rewrite IHc.
      * by rewrite IH.
    + simpl. by rewrite IHc.
Qed.

Lemma parse_length_pair s :
  ((length s + 1 ≤ 2 * length (parse s))%nat
   ∧ (length (parse s) ≤ length s + 1)%nat)
  ∧ ∀ c, (length (c :: s) + 1 ≤ 2 * length (parse (c :: s)))%nat
         ∧ (length (parse (c :: s)) ≤ length (c :: s) + 1)%nat.
Proof.
  induction s as [|c2 rest2 [IH IHc]].
  - split; [simpl; lia|]. intros c. cbn [parse]. destruct (digit c); simpl; lia.
  - split; [apply IHc|]. intros c. specialize (IHc c2).
    cbn [parse] in *. destruct (digit c) as [d|].
    + destruct (digit c2) as [d2|]; simpl in *; lia.
    + simpl in *. lia.
Qed.

(** X11.  The tokens of a pattern text, each an optional digit with an
    optional other character, spell the text when put together in
    order; a text of [n] characters has at most [n + 1] tokens, the
    last one empty, and at least half as many. *)
Theorem parse_spells_text (s : str) :
  concat (map token_text (parse s)) = s
  ∧ (length s + 1 ≤ 2 * length (parse s))%nat
  ∧ (length (parse s) ≤ length s + 1)%nat
  ∧ last (parse s) = Some ([], []).
Proof.
  split; [apply parse_text_pair|]. split; [apply parse_length_pair|].
  split; [apply parse_length_pair|].
  assert (Hlast : last (parse s) = Some ([], [])
                  ∧ ∀ c, last (parse (c :: s)) = Some ([], [])); [|tauto].
  induction s as [|c2 rest2 [IH IHc]].
  - split; [done|]. intros c. cbn [parse]. by destruct (digit c).
  - split; [apply IHc|]. intros c. specialize (IHc c2).
    assert (Hne : ∀ t, parse t ≠ []).
    { intros [|a [|b t]]; cbn [parse]; repeat case_match; done. }
    cbn [parse] in *. destruct (digit c) as [d|].
    + destruct (digit c2) as [d2|].
      * rewrite last_cons, IHc. done.
      * rewrite last_cons, IH. done.
    + rewrite last_cons, IHc. done.
Qed.

(** ** The escapes of a line *)

Lemma parse_hex_bounded n s :
  (length s ≤ n)%nat →
  (length (parse_hex s) ≤ length s)%nat
  ∧ ("^"%char ∉ s → parse_hex s = s).
Proof.
  revert s. induction n as [|n IH]; intros s Hn.
  - destruct s; [done|simpl in Hn; lia].
  - destruct s as [|c rest]; [done|]. cbn [parse_hex].
    assert (Hrest : (length (c :: parse_hex rest) ≤ length (c :: rest))%nat
                    ∧ ("^"%char ∉ c :: rest → c :: parse_hex rest = c :: rest)).
    { destruct (IH rest) as [Hl He]; [simpl in Hn; lia|].
      split; [simpl; lia|].
      intros [_ Hr]%not_elem_of_cons. by rewrite He. }
    destruct rest as [|c2 [|h1 [|h2 rest4]]]; try exact Hrest.
    destruct (hex h1) as [a|]; [|exact Hrest].
    destruct (hex h2) as [b|]; [|exact Hrest].
    destruct (decide (c = "^"%char ∧ c2 = "^"%char)) as [[-> ->]|];
      [|exact Hrest].
    destruct (IH rest4) as [Hl _]; [simpl in Hn; lia|].
    split; [simpl; lia|].
    intros Hc. exfalso. apply Hc, elem_of_cons. by left.
Qed.

Lemma parse_hex_prefix pre rest :
  "^"%char ∉ pre → parse_hex (pre ++ rest) = pre ++ parse_hex rest.
Proof.
  induction pre as [|c pre IH]; intros Hpre; [done|].
  apply not_elem_of_cons in Hpre as [Hc Hpre].
  rewrite <- app_comm_cons. cbn [parse_hex]. rewrite IH by done.
  destruct (pre ++ rest) as [|c2 [|h1 [|h2 rest4]]]; try done.
  destruct (hex h1); [|done]. destruct (hex h2); [|done].
  by rewrite decide_False by (intros [? _]; congruence).
Qed.

(** X12.  Replacing the [^^hh] escapes never makes a line longer and
    leaves a line without [^] as it is; the first escape of a line, two
    carets and two hexadecimal digits, becomes the character with that
    code. *)
Theorem parse_hex_escapes (s : str) :
  (length (parse_hex s) ≤ length s)%nat
  ∧ ("^"%char ∉ s → parse_hex s = s)
  ∧ ∀ pre h1 h2 a b rest,
      s = pre ++ "^"%char :: "^"%char :: h1 :: h2 :: rest →
      "^"%char ∉ pre → hex h1 = Some a → hex h2 = Some b →
      parse_hex s = pre ++ ascii_of_nat (16 * a + b) :: parse_hex rest.
Proof.
  destruct (parse_hex_bounded (length s) s) as [Hlen Hid]; [done|].
  split_and!; [done..|].
  intros pre h1 h2 a b rest -> Hpre Ha Hb.
  rewrite parse_hex_prefix by done. cbn [parse_hex].
  by rewrite Ha, Hb, decide_True.
Qed.

Lemma parse_hex_escapes_witness :
  parse_hex (lit "e^^41f5") = lit "eAf5".
Proof.
  destruct (parse_hex_escapes (lit "e^^41f5")) as (_ & _ & Hesc).
  rewrite (Hesc (lit "e") "4"%char "1"%char 4%nat 1%nat (lit "f5"));
    [reflexivity..| |reflexivity|reflexivity].
  intros Hin. apply elem_of_cons in Hin as [Hin|Hin]; [discriminate|].
  by apply elem_of_nil in Hin.
Defined.

(** ** The weights of a parsed table *)

Lemma Forall_lstrip {A} (P : A → Prop) (sp : A → bool) (l : list A) :
  Forall P l → Forall P (lstrip sp l).
Proof.
  induction 1 as [|x l Hx Hl IH]; simpl; [constructor|].
  destruct (sp x); [done|by constructor].
Qed.

Lemma Forall_strip {A} (P : A → Prop) (sp : A → bool) (l : list A) :
  Forall P l → Forall P (strip sp l).
Proof.
  intros Hl. unfold strip.
  apply Forall_rev, Forall_lstrip, Forall_rev, Forall_lstrip, Hl.
Qed.

Lemma store_weights (P : DataInt → Prop) pats tags values pats' :
  store pats tags values = Ok pats' → Forall P values →
  map_Forall (fun _ pattern => Forall P pattern.2) pats →
  map_Forall (fun _ pattern => Forall P pattern.2) pats'.
Proof.
  intros Hstore Hvalues Hpats.
  destruct (max_val values) as [m|e] eqn:Hm;
    [|unfold store in Hstore; by rewrite Hm in Hstore].
  destruct (decide (m = 0)) as [->|Hm0].
  - unfold store in Hstore. rewrite Hm in Hstore. simpl in Hstore.
    by injection Hstore as <-.
  - destruct (store_kept pats tags values m Hm Hm0) as [_ Heq].
    rewrite Heq in Hstore. injection Hstore as <-.
    apply map_Forall_insert_2; [|done]. simpl. by apply Forall_strip.
Qed.

Lemma tags_values_plain tokens tags values :
  tags_values PlainInt tokens = Ok (tags, values) → Forall plain values.
Proof.
  revert tags values. induction tokens as [|[i string] rest IH];
    intros tags values; cbn [tags_values].
  - intros [= <- <-]. constructor.
  - unfold factory_call.
    destruct (int_of_str _) as [z|e]; [|done]. simpl.
    destruct (tags_values PlainInt rest) as [[tags' values']|e] eqn:Hrest;
      [|done]. simpl.
    intros [= <- <-]. constructor; [done|]. by eapply IH.
Qed.

Lemma line_tags_values_plain text tags values :
  has_alternative text = false →
  line_tags_values text = Ok (tags, values) → Forall plain values.
Proof.
  unfold has_alternative, line_tags_values. intros -> Htv.
  change (match parse text with
          | [] => Raise ValueError
          | token :: tokens => tags_values PlainInt (token :: tokens)
          end = Ok (tags, values)) in Htv.
  apply (tags_values_plain (parse text) tags).
  by destruct (parse text).
Qed.

Section TableWeights.
Context `{Runtime}.

Lemma read_patterns_weights (P : DataInt → Prop) charset stream pats pats' :
  (∀ line s tags values,
     line ∈ stream → decode charset line = Ok s →
     line_tags_values (parse_hex (strip str_isspace s)) = Ok (tags, values) →
     Forall P values) →
  read_patterns charset stream pats = Ok pats' →
  map_Forall (fun _ pattern => Forall P pattern.2) pats →
  map_Forall (fun _ pattern => Forall P pattern.2) pats'.
Proof.
  revert pats. induction stream as [|line rest IH]; intros pats Hlines;
    simpl.
  - by intros [= <-].
  - destruct (decode charset line) as [s|e] eqn:Hs; [|done]. simpl.
    destruct (process_line pats (strip str_isspace s)) as [pats1|e]
      eqn:Hline; [|done]. simpl.
    intros Hrest Hpats. apply (IH pats1); [| exact Hrest |].
    + intros l s' tags values Hl. apply Hlines, elem_of_cons. by right.
    + unfold process_line in Hline.
      destruct (skipped _); [by injection Hline as <-|].
      destruct (line_tags_values _) as [[tags values]|e] eqn:Htv; [|done].
      simpl in Hline. apply (store_weights P _ _ _ _ Hline); [|done].
      apply (Hlines line s tags values); [|done..].
      apply elem_of_cons. by left.
Qed.

Lemma HyphDict_init_weights (P : DataInt → Prop) content d :
  HyphDict_init content = Ok d →
  (∀ charset line s tags values,
     declared_charset (readlines content) = Ok charset →
     line ∈ tail (readlines content) → decode charset line = Ok s →
     line_tags_values (parse_hex (strip str_isspace s)) = Ok (tags, values) →
     Forall P values) →
  map_Forall (fun _ pattern => Forall P pattern.2) (patterns d).
Proof.
  unfold HyphDict_init. intros Hinit Hlines.
  destruct (declared_charset _) as [charset|e]; [|done]. simpl in Hinit.
  destruct (read_patterns _ _ ∅) as [pats|e] eqn:Hread; [|done].
  simpl in Hinit.
  destruct (max_key_length pats) as [mlen|e]; [|done].
  injection Hinit as <-. simpl.
  apply (read_patterns_weights P _ _ _ _
           (fun line s tags values => Hlines charset line s tags values eq_refl)
           Hread).
  apply map_Forall_empty.
Qed.

(** X13.  Every weight of the table of a parsed dictionary is a digit,
    from 0 to 9. *)
Theorem table_weights_are_digits (content : bytes) (d : HyphDict) :
  HyphDict_init content = Ok d → digit_weights (patterns d).
Proof.
  intros Hinit. apply (HyphDict_init_weights _ _ _ Hinit).
  intros charset line s tags values _ _ _ Htv.
  by apply line_tags_values_spec in Htv as (_ & Hdigits & _).
Qed.

(** X14.  A dictionary none of whose lines holds both [/] and [=] gives
    a table without nonstandard entries. *)
Theorem plain_dictionary_plain_table (content : bytes) (d : HyphDict) :
  HyphDict_init content = Ok d →
  (∀ charset line s,
     declared_charset (readlines content) = Ok charset →
     line ∈ tail (readlines content) → decode charset line = Ok s →
     has_alternative (parse_hex (strip str_isspace s)) = false) →
  plain_table (patterns d).
Proof.
  intros Hinit Hlines. apply (HyphDict_init_weights _ _ _ Hinit).
  intros charset line s tags values Hcs Hin Hs.
  apply line_tags_values_plain. by eapply Hlines.
Qed.

End TableWeights.

Lemma table_weights_are_digits_witness :
  @HyphDict_init rt dic = Ok dic_table ∧ digit_weights (patterns dic_table).
Proof.
  assert (Hd : @HyphDict_init rt dic = Ok dic_table)
    by (vm_compute; reflexivity).
  split; [exact Hd|]. exact (@table_weights_are_digits rt dic dic_table Hd).
Defined.

Lemma plain_dictionary_plain_table_witness :
  @HyphDict_init rt dic = Ok dic_table ∧ plain_table (patterns dic_table).
Proof.
  assert (Hd : @HyphDict_init rt dic = Ok dic_table)
    by (vm_compute; reflexivity).
  split; [exact Hd|].
  assert (Hcharset : @declared_charset rt (readlines dic) = Ok (lit "ascii"))
    by (vm_compute; reflexivity).
  assert (Hlines :
    forallb (λ line,
               match @decode rt (lit "ascii") line with
               | Ok s =>
                   negb (has_alternative
                           (parse_hex (strip str_isspace s)))
               | Raise _ => true
               end)
      (tail (readlines dic)) = true)
    by (vm_compute; reflexivity).
  apply (@plain_dictionary_plain_table rt dic dic_table Hd).
  intros charset line s Hcs Hin Hs.
  rewrite Hcharset in Hcs. injection Hcs as <-.
  apply list_elem_of_In in Hin.
  pose proof (proj1 (forallb_forall _ _) Hlines line Hin) as Hline.
  cbv beta in Hline.
  assert (Hs' : @decode rt (lit "ascii") line = Ok s) by exact Hs.
  rewrite Hs' in Hline.
  by destruct (has_alternative _).
Defined.

(** ** The data of a nonstandard alternative *)

Lemma alternative_values_data tokens (a : AlternativeParser) tags values :
  tags_values (Alternative a) tokens = Ok (tags, values) →
  ∀ k v, values !! k = Some v →
    data v = if Z.land (val v) 1 =? 0 then None
             else Some (change a, index a - Z.of_nat (k + 1), cut a).
Proof.
  revert a tags values. induction tokens as [|[i string] rest IH];
    intros a tags values; cbn [tags_values].
  - by intros [= <- <-] k v.
  - unfold factory_call, AlternativeParser_call.
    destruct (int_of_str _) as [z|e]; [|done]. simpl.
    set (a' := mkAlternativeParser (change a) (index a - 1) (cut a)).
    destruct (Z.land z 1 =? 0) eqn:Hz; simpl;
      (destruct (tags_values (Alternative a') rest)
         as [[tags' values']|e] eqn:Hrest; [|done]);
      simpl; intros [= <- <-] k v Hk;
      (destruct k as [|k];
       [injection Hk as <-; simpl; rewrite Hz; try done;
        do 3 f_equal; lia
       |simpl in Hk; rewrite (IH _ _ _ Hrest k v Hk); simpl;
        destruct (Z.land (val v) 1 =? 0); [done|do 3 f_equal; lia]]).
Qed.

Lemma strip_zeros_lookup values k v :
  ¬ all_zero values → strip is_zero values !! k = Some v →
  values !! (leading_zeros values + k)%nat = Some v.
Proof.
  intros Hnz. rewrite <- strip_zeros_slice by done. unfold slice.
  intros [Hv _]%lookup_take_Some. rewrite lookup_drop in Hv.
  rewrite adjust_inside in Hv; [by rewrite Nat2Z.id in Hv|].
  pose proof (leading_zeros_le values). lia.
Qed.

(** X15.  The values of a line with a nonstandard alternative carry its
    data when they are odd and none when they are even, with an index
    that goes down by one from value to value.  Hence, wherever the
    stored pattern matches a word, the point where the change is to be
    written, index plus break position, is the same for every weight of
    the line: the start of the match plus the index of the line, less
    two. *)
Theorem alternative_substitution_point (a : AlternativeParser)
    (tokens : list (str * str)) tags values :
  tags_values (Alternative a) tokens = Ok (tags, values) →
  ¬ all_zero values →
  (∀ k v, values !! k = Some v →
     data v = if Z.land (val v) 1 =? 0 then None
              else Some (change a, index a - Z.of_nat (k + 1), cut a)) ∧
  ∀ (i idx : nat) v change_ index_ cut_,
    weight_at (i, (leading_zeros values, strip is_zero values)) idx = Some v →
    data v = Some (change_, index_, cut_) →
    change_ = change a ∧ cut_ = cut a ∧
    index_ + (Z.of_nat idx - 1) = index a + Z.of_nat i - 2.
Proof.
  intros Htv Hnz.
  pose proof (alternative_values_data _ _ _ _ Htv) as Hdata.
  split; [exact Hdata|].
  intros i idx v change_ index_ cut_ Hw Hv. unfold weight_at in Hw.
  case_decide as Hle; [|done].
  apply strip_zeros_lookup in Hw; [|done].
  rewrite (Hdata _ _ Hw) in Hv.
  destruct (Z.land (val v) 1 =? 0); [done|].
  injection Hv as <- <- <-. split_and!; [done..|]. lia.
Qed.

Lemma alternative_substitution_point_witness :
  tags_values (Alternative (mkAlternativeParser (lit "k=k") 2 1))
    (parse (lit "c1k"))
  = Ok ([lit "c"; lit "k"; []],
        [int 0; mkDataInt 1 (Some (lit "k=k", 0, 1)); int 0])
  ∧ ¬ all_zero [int 0; mkDataInt 1 (Some (lit "k=k", 0, 1)); int 0]
  ∧ weight_at (3%nat, (1%nat, [mkDataInt 1 (Some (lit "k=k", 0, 1))])) 4
    = Some (mkDataInt 1 (Some (lit "k=k", 0, 1)))
  ∧ 0 + (Z.of_nat 4 - 1) = 2 + Z.of_nat 3 - 2.
Proof.
  assert (Htv : tags_values (Alternative (mkAlternativeParser (lit "k=k") 2 1))
                  (parse (lit "c1k"))
                = Ok ([lit "c"; lit "k"; []],
                      [int 0; mkDataInt 1 (Some (lit "k=k", 0, 1)); int 0]))
    by (vm_compute; reflexivity).
  assert (Hnz : ¬ all_zero [int 0; mkDataInt 1 (Some (lit "k=k", 0, 1)); int 0]).
  { intros Hall. apply Forall_cons in Hall as [_ Hall].
    by apply Forall_cons in Hall as [Hall _]. }
  assert (Hw : weight_at (3%nat, (1%nat, [mkDataInt 1 (Some (lit "k=k", 0, 1))])) 4
               = Some (mkDataInt 1 (Some (lit "k=k", 0, 1))))
    by reflexivity.
  split_and!; [exact Htv|exact Hnz|exact Hw|].
  destruct (alternative_substitution_point _ _ _ _ Htv Hnz) as [_ Hpoint].
  by destruct (Hpoint 3%nat 4%nat _ (lit "k=k") 0 1 Hw eq_refl) as (_ & _ & ?).
Defined.

(** ** [language_fallback] *)

Lemma split_nonempty sep s : split sep s ≠ [].
Proof. destruct s as [|c rest]; simpl; repeat case_match; done. Qed.

Lemma join_split sep s : join [sep] (split sep s) = s.
Proof.
  induction s as [|c rest IH]; [done|]. cbn [split].
  pose proof (split_nonempty sep rest) as Hne.
  destruct (decide (c = sep)) as [->|Hc].
  - destruct (split sep rest) as [|piece pieces]; [done|].
    change (join [sep] ([] :: piece :: pieces))
      with ([] ++ [sep] ++ join [sep] (piece :: pieces)).
    by rewrite IH.
  - destruct (split sep rest) as [|piece pieces]; [done|].
    rewrite <- IH. by destruct pieces.
Qed.

Section Fallback.
Context `{Runtime}.

Lemma fallback_loop_spec (rparts : list str) :
  match fallback_loop rparts with
  | Ok language =>
      ∃ j, (j < length rparts)%nat
           ∧ language = join (lit "_") (rev (drop j rparts))
           ∧ is_Some (LANGUAGES !! language)
           ∧ ∀ j', (j' < j)%nat
                   → LANGUAGES !! join (lit "_") (rev (drop j' rparts)) = None
  | Raise e =>
      e = KeyError
      ∧ ∀ j, (j < length rparts)%nat
             → LANGUAGES !! join (lit "_") (rev (drop j rparts)) = None
  end.
Proof.
  induction rparts as [|p rest IH]; [split; [done|simpl; lia]|].
  cbn [fallback_loop].
  destruct (decide (is_Some (LANGUAGES !! join (lit "_") (rev (p :: rest)))))
    as [Hin|Hout].
  - exists 0%nat. split_and!; [simpl; lia|done|done|lia].
  - assert (Hnone : LANGUAGES !! join (lit "_") (rev (p :: rest)) = None)
      by (by apply eq_None_not_Some).
    destruct (fallback_loop rest) as [language|e].
    + destruct IH as (j & Hj & Hl & Hin & Hbefore).
      exists (S j). split_and!; [simpl; lia|done|done|].
      intros [|j'] Hj'; [done|]. apply Hbefore. lia.
    + destruct IH as [-> Hall]. split; [done|].
      intros [|j] Hj; [done|]. apply Hall. simpl in Hj. lia.
Qed.

Lemma rev_drop_rev {A} (l : list A) j :
  rev (drop j (rev l)) = take (length l - j) l.
Proof. by rewrite !rev_reverse, drop_reverse, reverse_involutive. Qed.

(** X16.  [language_fallback] returns the longest of the tags got by
    cutting the language, with [-] read as [_], after one of its parts
    that is a key of [LANGUAGES]; it raises [KeyError], and nothing
    else, exactly when none is.  A language that is a key, once [-] is
    read as [_], is returned as it is. *)
Theorem language_fallback_longest (language : str) :
  (∀ found, language_fallback language = Ok found →
     ∃ k, (1 ≤ k ≤ length (language_parts language))%nat
          ∧ found = truncation language k
          ∧ is_Some (LANGUAGES !! found)
          ∧ ∀ k', (k < k' ≤ length (language_parts language))%nat
                  → LANGUAGES !! truncation language k' = None) ∧
  (∀ e, language_fallback language = Raise e →
     e = KeyError
     ∧ ∀ k, (1 ≤ k ≤ length (language_parts language))%nat
            → LANGUAGES !! truncation language k = None) ∧
  (is_Some (LANGUAGES !! replace "-" (lit "_") language) →
   language_fallback language = Ok (replace "-" (lit "_") language)).
Proof.
  unfold language_fallback, truncation. fold (language_parts language).
  set (parts := language_parts language).
  pose proof (fallback_loop_spec (rev parts)) as Hspec.
  rewrite length_rev in Hspec.
  assert (Hfull : join (lit "_") parts = replace "-" (lit "_") language)
    by apply join_split.
  split_and!.
  - intros found Hfound. rewrite Hfound in Hspec.
    destruct Hspec as (j & Hj & Hl & Hin & Hbefore).
    rewrite rev_drop_rev in Hl.
    exists (length parts - j)%nat. split_and!; [lia|lia|done|done|].
    intros k' Hk'. specialize (Hbefore (length parts - k')%nat).
    rewrite rev_drop_rev in Hbefore.
    replace (length parts - (length parts - k'))%nat with k' in Hbefore
      by lia.
    apply Hbefore. lia.
  - intros e He. rewrite He in Hspec. destruct Hspec as [-> Hall].
    split; [done|]. intros k Hk. specialize (Hall (length parts - k)%nat).
    rewrite rev_drop_rev in Hall.
    replace (length parts - (length parts - k))%nat with k in Hall by lia.
    apply Hall. lia.
  - intros Hin.
    assert (Hne : parts ≠ []) by apply split_nonempty.
    destruct (rev parts) as [|p rest] eqn:Hrev.
    { apply (f_equal (@rev _)) in Hrev. by rewrite rev_involutive in Hrev. }
    cbn [fallback_loop]. rewrite <- Hrev, rev_involutive, Hfull.
    by rewrite decide_True.
Qed.

End Fallback.

Lemma language_fallback_longest_witness :
  @language_fallback
    (AsciiRuntime.runtime (<[lit "de" := lit "hyph_de.dic"]> ∅))
    (lit "de-CH-1901")
  = Ok (lit "de").
Proof.
  destruct (@language_fallback
              (AsciiRuntime.runtime (<[lit "de" := lit "hyph_de.dic"]> ∅))
              (lit "de-CH-1901")) as [found|e] eqn:Hfb.
  - destruct (@language_fallback_longest
                (AsciiRuntime.runtime (<[lit "de" := lit "hyph_de.dic"]> ∅))
                (lit "de-CH-1901")) as (Hfound & _ & _).
    destruct (Hfound found Hfb) as (k & Hk & -> & [path Hin] & _).
    f_equal.
    destruct k as [|[|[|[|k]]]]; [simpl in Hk; lia|reflexivity| | |];
      vm_compute in Hin; discriminate Hin.
  - vm_compute in Hfb. discriminate Hfb.
Defined.

(** ** The [LANGUAGES] table *)

Lemma register_lookup join_root languages filename key :
  register join_root languages filename !! key =
    if decide (named key filename) then Some (join_root filename)
    else match languages !! key with
         | Some path => Some path
         | None => if decide (regional key filename)
                   then Some (join_root filename) else None
         end.
Proof.
  unfold register.
  destruct (decide (named key filename)) as [[Hdic Hname]|Hnamed].
  - rewrite Hdic. subst key.
    destruct (decide (is_Some (<[language_name filename:=join_root filename]>
                                 languages
                               !! short_name (language_name filename)))).
    + by rewrite lookup_insert_eq.
    + destruct (decide (short_name (language_name filename)
                        = language_name filename)) as [->|Hne].
      * by rewrite lookup_insert_eq.
      * by rewrite lookup_insert_ne, lookup_insert_eq.
  - destruct (endswith filename (lit ".dic")) eqn:Hdic.
    + assert (Hname : language_name filename ≠ key)
        by (intros ?; by apply Hnamed).
      destruct (decide (regional key filename)) as [[_ Hshort]|Hregional].
      * subst key.
        destruct (decide (is_Some (<[language_name filename:=join_root filename]>
                                     languages
                                   !! short_name (language_name filename))))
          as [Hin|Hout].
        -- rewrite lookup_insert_ne in Hin |- * by done.
           destruct Hin as [path ->]. done.
        -- rewrite lookup_insert_eq.
           rewrite lookup_insert_ne in Hout by done.
           apply eq_None_not_Some in Hout. by rewrite Hout.
      * assert (Hshort : short_name (language_name filename) ≠ key)
          by (intros ?; by apply Hregional).
        destruct (decide (is_Some (<[language_name filename:=join_root filename]>
                                     languages
                                   !! short_name (language_name filename)))).
        -- rewrite lookup_insert_ne by done. by destruct (languages !! key).
        -- rewrite !lookup_insert_ne by done. by destruct (languages !! key).
    + rewrite decide_False by (intros [? _]; congruence).
      by destruct (languages !! key).
Qed.

Lemma last_is_Some {A} (l : list A) : l ≠ [] → is_Some (last l).
Proof.
  intros Hne. destruct (last l) eqn:Hlast; [done|].
  by apply last_None in Hlast.
Qed.

Lemma registered_lookup join_root filenames languages key :
  fold_left (register join_root) filenames languages !! key =
    match last (filter (named key) filenames) with
    | Some filename => Some (join_root filename)
    | None =>
        match languages !! key with
        | Some path => Some path
        | None => join_root <$> head (filter (regional key) filenames)
        end
    end.
Proof.
  revert languages.
  induction filenames as [|filename rest IH]; intros languages.
  { simpl. by destruct (languages !! key). }
  cbn [fold_left]. rewrite IH, register_lookup, !filter_cons.
  destruct (decide (named key filename)) as [Hnamed|Hnamed].
  - destruct (filter (named key) rest) as [|f fs] eqn:Hrest; [done|].
    change (last (filename :: f :: fs)) with (last (f :: fs)).
    by destruct (last_is_Some (f :: fs)) as [x ->].
  - destruct (last (filter (named key) rest)); [done|].
    destruct (languages !! key); [done|].
    by destruct (decide (regional key filename)).
Qed.

(** X17.  What the loop over the dictionaries directory leaves in
    [LANGUAGES]: under a key, the path of the last file, in sorted
    order, that ends in [.dic] and has that name; when there is none,
    the path of the first such file whose name starts with the key as
    its first part; and nothing when there is none either. *)
Theorem LANGUAGES_lookup (join_root : str → str) (listing : list str)
    (key : str) :
  build_LANGUAGES join_root listing !! key =
    match last (filter (named key) (sorted listing)) with
    | Some filename => Some (join_root filename)
    | None => join_root <$> head (filter (regional key) (sorted listing))
    end.
Proof.
  unfold build_LANGUAGES. rewrite registered_lookup, lookup_empty. done.
Qed.

Lemma elem_of_sorted filename listing :
  filename ∈ listing → filename ∈ sorted listing.
Proof.
  intros Hin. unfold sorted. by rewrite merge_sort_Permutation.
Qed.

Lemma registered_short join_root listing filename :
  filename ∈ listing → endswith filename (lit ".dic") = true →
  is_Some (build_LANGUAGES join_root listing
           !! short_name (language_name filename)).
Proof.
  intros Hin Hdic. unfold build_LANGUAGES.
  rewrite registered_lookup, lookup_empty.
  destruct (last _); [done|].
  assert (Hf : filename ∈ filter (regional (short_name (language_name filename)))
                 (sorted listing)).
  { apply list_elem_of_filter. split; [done|by apply elem_of_sorted]. }
  destruct (filter _ (sorted listing)); [by apply elem_of_nil in Hf|done].
Qed.

Lemma registered_name join_root listing filename :
  filename ∈ listing → endswith filename (lit ".dic") = true →
  is_Some (build_LANGUAGES join_root listing !! language_name filename).
Proof.
  intros Hin Hdic. unfold build_LANGUAGES.
  rewrite registered_lookup, lookup_empty.
  assert (Hf : filename ∈ filter (named (language_name filename))
                 (sorted listing)).
  { apply list_elem_of_filter. split; [done|by apply elem_of_sorted]. }
  destruct (last_is_Some (filter (named (language_name filename))
                            (sorted listing))) as [f ->]; [|done].
  intros Hnil. rewrite Hnil in Hf. by apply elem_of_nil in Hf.
Qed.

(** X18.  With [LANGUAGES] built from the directory, a language tag
    whose first part is the first part of the name of a dictionary
    file there has a fallback; and the name of a dictionary file,
    when it has no [-], is its own fallback. *)
Theorem installed_dictionary_resolves `{Runtime} (join_root : str → str)
    (listing : list str) (filename language : str) :
  LANGUAGES = build_LANGUAGES join_root listing →
  filename ∈ listing →
  endswith filename (lit ".dic") = true →
  (head (language_parts language) = Some (short_name (language_name filename)) →
   ∃ found, language_fallback language = Ok found
            ∧ is_Some (LANGUAGES !! found)) ∧
  ("-"%char ∉ language_name filename →
   language_fallback (language_name filename) = Ok (language_name filename)).
Proof.
  intros Htable Hin Hdic. split.
  - intros Hhead. unfold language_fallback.
    fold (language_parts language).
    pose proof (fallback_loop_spec (rev (language_parts language))) as Hspec.
    rewrite length_rev in Hspec.
    destruct (fallback_loop (rev (language_parts language))) as [found|e].
    + destruct Hspec as (j & _ & _ & Hfound & _). by exists found.
    + destruct Hspec as [_ Hall]. exfalso.
      destruct (language_parts language) as [|p parts] eqn:Hparts;
        [done|].
      injection Hhead as ->.
      specialize (Hall (length parts)).
      rewrite <- Hparts, rev_drop_rev, Hparts in Hall.
      replace (length (short_name (language_name filename) :: parts)
               - length parts)%nat with 1%nat in Hall by (simpl; lia).
      cbn [take join] in Hall.
      pose proof (registered_short join_root listing filename Hin Hdic)
        as [path Hpath].
      rewrite take_0 in Hall. rewrite Htable, Hpath in Hall.
      by specialize (Hall ltac:(simpl; lia)).
  - intros Hplain.
    assert (Hsame : replace "-" (lit "_") (language_name filename)
                    = language_name filename).
    { revert Hplain. generalize (language_name filename) as s.
      induction s as [|c s IH]; intros Hplain; [done|].
      unfold replace in *. cbn [flat_map]. rewrite decide_False.
      - rewrite IH; [done|]. intros ?. apply Hplain. by right.
      - intros ->. apply Hplain. by left. }
    unfold language_fallback. rewrite Hsame.
    pose proof (split_nonempty "_" (language_name filename)) as Hne.
    destruct (rev (split "_" (language_name filename))) as [|p rest] eqn:Hrev.
    { apply (f_equal (@rev _)) in Hrev. by rewrite rev_involutive in Hrev. }
    assert (Hfull : join (lit "_") (split "_" (language_name filename))
                    = language_name filename) by apply join_split.
    cbn [fallback_loop]. rewrite <- Hrev, rev_involutive, Hfull.
    rewrite decide_True; [done|].
    rewrite Htable. by apply registered_name.
Qed.

Lemma installed_dictionary_resolves_witness :
  (∃ found,
     @language_fallback
       (AsciiRuntime.runtime
          (build_LANGUAGES (app (lit "root/"))
             [lit "hyph_de_DE.dic"; lit "README"; lit "hyph_de_CH.dic"]))
       (lit "de-AT")
     = Ok found
     ∧ is_Some (build_LANGUAGES (app (lit "root/"))
                  [lit "hyph_de_DE.dic"; lit "README"; lit "hyph_de_CH.dic"]
                !! found))
  ∧ @language_fallback
      (AsciiRuntime.runtime
         (build_LANGUAGES (app (lit "root/"))
            [lit "hyph_de_DE.dic"; lit "README"; lit "hyph_de_CH.dic"]))
      (lit "de_DE")
    = Ok (lit "de_DE").
Proof.
  destruct (@installed_dictionary_resolves
              (AsciiRuntime.runtime
                 (build_LANGUAGES (app (lit "root/"))
                    [lit "hyph_de_DE.dic"; lit "README";
                     lit "hyph_de_CH.dic"]))
              (app (lit "root/"))
              [lit "hyph_de_DE.dic"; lit "README"; lit "hyph_de_CH.dic"]
              (lit "hyph_de_DE.dic") (lit "de-AT")) as [Hfirst Hsecond].
  - reflexivity.
  - apply elem_of_cons. by left.
  - reflexivity.
  - split.
    + apply Hfirst. vm_compute. reflexivity.
    + apply Hsecond. vm_compute. intros Hin.
      repeat (apply elem_of_cons in Hin as [Hin|Hin]; [discriminate Hin|]).
      by apply elem_of_nil in Hin.
Defined.

(** ** A word with one break *)

Lemma replace_join old new s : replace old new s = join new (split old s).
Proof.
  induction s as [|c rest IH]; [done|].
  unfold replace in *. cbn [flat_map split]. rewrite IH.
  pose proof (split_nonempty old rest) as Hne.
  destruct (decide (c = old)) as [->|Hc].
  - by destruct (split old rest).
  - destruct (split old rest) as [|piece pieces]; [done|].
    by destruct pieces.
Qed.

Lemma adjust_le len i j : 0 ≤ i → i ≤ j → (adjust len i ≤ adjust len j)%nat.
Proof.
  intros Hi Hj. unfold adjust.
  destruct (Z.ltb_spec i 0), (Z.ltb_spec j 0); lia.
Qed.

Lemma concat_take_singletons (word : str) k :
  concat (take k (map (fun c => [c]) word)) = take k word.
Proof. by rewrite firstn_map, concat_singletons. Qed.

Lemma concat_drop_singletons (word : str) k :
  concat (drop k (map (fun c => [c]) word)) = drop k word.
Proof. by rewrite skipn_map, concat_singletons. Qed.

Section SingleBreak.
Context `{Runtime}.

(** X19.  When a word has one break position, [inserted] gives the two
    parts that [iterate] yields, joined by the hyphen; for a
    nonstandard break this needs the replaced piece to lie to the right
    of the start of the word.  [iterate] raises [ValueError] when the
    change of the break has not exactly one [=], and [inserted] still
    answers then. *)
Theorem single_break_iterate_inserted (self : Pyphen) (word hyphen : str)
    (w w' : World) (p : DataInt) :
  Pyphen_positions self word w = (Ok [p], w') →
  (∀ change index cut, data p = Some (change, index, cut) →
     0 ≤ index + val p ∧ 0 ≤ cut) →
  ∃ text,
    Pyphen_inserted self word hyphen w = (Ok text, w')
    ∧ ((∃ a b, Pyphen_iterate self word w = (([(a, b)], None), w')
               ∧ text = a ++ hyphen ++ b)
       ∨ (Pyphen_iterate self word w = (([], Some ValueError), w')
          ∧ ∃ change index cut,
              data p = Some (change, index, cut)
              ∧ length (split "="
                          (if str_isupper word then str_upper change
                           else change)) ≠ 2%nat)).
Proof.
  intros Hpos Hdata. unfold Pyphen_inserted, Pyphen_iterate.
  rewrite Hpos. cbn [rev app fold_left yields].
  eexists. split; [reflexivity|].
  unfold split_at, insert_step.
  destruct (data p) as [[[change index] cut]|] eqn:Hp.
  - destruct (Hdata _ _ _ eq_refl) as [Hindex Hcut].
    set (change' := if str_isupper word then str_upper change else change).
    assert (Htext :
      concat (slice_assign (map (fun c => [c]) word) (index + val p)
                (index + val p + cut)
                (map (fun c => [c]) (replace "=" hyphen change')))
      = slice_to word (index + val p)
        ++ join hyphen (split "=" change')
        ++ slice_from word (index + val p + cut)).
    { unfold slice_assign, slice_to, slice_from.
      rewrite length_map, !concat_app, concat_singletons.
      rewrite concat_take_singletons, concat_drop_singletons.
      rewrite replace_join. do 3 f_equal.
      pose proof (adjust_le (length word) (index + val p)
                    (index + val p + cut) Hindex). lia. }
    rewrite Htext.
    destruct (split "=" change') as [|c1 [|c2 [|c3 pieces]]] eqn:Hsplit.
    + right. split; [done|]. exists change, index, cut.
      fold change'. by rewrite Hsplit.
    + right. split; [done|]. exists change, index, cut.
      fold change'. by rewrite Hsplit.
    + left. eexists _, _. split; [reflexivity|].
      cbn [join]. by rewrite <- !app_assoc.
    + right. split; [done|]. exists change, index, cut.
      fold change'. by rewrite Hsplit.
  - left. eexists _, _. split; [reflexivity|].
    unfold insert, slice_to, slice_from.
    rewrite length_map, concat_app. cbn [concat].
    by rewrite concat_take_singletons, concat_drop_singletons.
Qed.

End SingleBreak.

Lemma single_break_iterate_inserted_witness :
  ∃ w',
    @Pyphen_positions rt tie_hyphenator (lit "xbc") tie_world
    = (Ok [mkDataInt 1 (Some (lit "b=b", 0, 1))], w')
    ∧ @Pyphen_inserted rt tie_hyphenator (lit "xbc") (lit "-") tie_world
      = (Ok (lit "xb-bc"), w').
Proof.
  exists (snd (@Pyphen_positions rt tie_hyphenator (lit "xbc") tie_world)).
  assert (Hpos :
    @Pyphen_positions rt tie_hyphenator (lit "xbc") tie_world
    = (Ok [mkDataInt 1 (Some (lit "b=b", 0, 1))],
       snd (@Pyphen_positions rt tie_hyphenator (lit "xbc") tie_world)))
    by (vm_compute; reflexivity).
  assert (Hparts :
    @Pyphen_iterate rt tie_hyphenator (lit "xbc") tie_world
    = (([(lit "xb", lit "bc")], None),
       snd (@Pyphen_positions rt tie_hyphenator (lit "xbc") tie_world)))
    by (vm_compute; reflexivity).
  split; [exact Hpos|].
  destruct (@single_break_iterate_inserted rt tie_hyphenator (lit "xbc")
              (lit "-") tie_world _ _ Hpos)
    as (text & Hins & [(a & b & Hit & ->)|[Hit _]]).
  - intros change index cut [= <- <- <-]. simpl. lia.
  - rewrite Hins. rewrite Hparts in Hit. by injection Hit as <- <-.
  - rewrite Hparts in Hit. discriminate Hit.
Defined.

(** ** The break positions of a word *)

Lemma elem_of_matches pats mlen pw m :
  m ∈ matches pats mlen pw ↔ occurs pats mlen pw m.
Proof.
  unfold matches, occurs. rewrite list_elem_of_In, in_flat_map. split.
  - intros (i & Hi & Hm). rewrite <- list_elem_of_In in Hi.
    rewrite <- list_elem_of_In in Hm.
    apply elem_of_range in Hi.
    unfold matches_i in Hm. apply list_elem_of_omap in Hm as (j & Hj & Hm).
    apply elem_of_range in Hj.
    destruct (pats !! take (j - i) (drop i pw)) as [pattern|] eqn:Hkey;
      simplify_eq/=.
    assert (Hlen : length (take (j - i) (drop i pw)) = (j - i)%nat)
      by (rewrite length_take, length_drop; lia).
    exists (take (j - i) (drop i pw)). rewrite Hlen.
    split_and!; [done|lia|lia|lia|lia|done].
  - intros (key & Hkey & Hlen & Hi & Hfit & Htake).
    destruct m as [i pattern]. simpl in *.
    exists i. rewrite <- !list_elem_of_In. split.
    + apply elem_of_range. lia.
    + unfold matches_i. apply list_elem_of_omap.
      exists (i + length key)%nat. split.
      * apply elem_of_range. lia.
      * replace (i + length key - i)%nat with (length key) by lia.
        by rewrite Htake, Hkey.
Qed.

Lemma elem_of_points_from i (refs : list DataInt) (p : Z) :
  p ∈ map val (points_from i refs) ↔
  ∃ k r, refs !! k = Some r ∧ val r mod 2 ≠ 0 ∧ p = Z.of_nat (i + k) - 1.
Proof.
  revert i. induction refs as [|r0 refs IH]; intros i; cbn [points_from].
  - split; [intros Hp; by apply elem_of_nil in Hp|].
    by intros (k & r & Hr & _).
  - destruct (Z.eqb_spec (val r0 mod 2) 0) as [Heven|Hodd].
    + rewrite IH. split.
      * intros (k & r & Hr & Hodd & ->). exists (S k), r.
        split_and!; [done|done|lia].
      * intros ([|k] & r & Hr & Hodd & ->); simplify_eq/=.
        exists k, r. split_and!; [done|done|lia].
    + cbn [map]. rewrite elem_of_cons, IH, val_DataInt_of_reference. split.
      * intros [->|(k & r & Hr & Hr2 & ->)].
        -- exists 0%nat, r0. split_and!; [done|done|lia].
        -- exists (S k), r. split_and!; [done|done|lia].
      * intros ([|k] & r & Hr & Hr2 & ->); simplify_eq/=.
        -- left. lia.
        -- right. exists k, r. split_and!; [done|done|lia].
Qed.

(** X20.  The position [p] of a word is a break position exactly when,
    among the weights that the keys of the table standing in the
    pointed word give to it, a greatest one is odd and positive. *)
Theorem break_iff_odd_maximum (pats : gmap str Pattern) (mlen : nat)
    (word : str) (p : Z) :
  p ∈ map val (find_positions pats mlen word) ↔
  -1 ≤ p ≤ Z.of_nat (length word) + 1 ∧
  ∃ m v,
    occurs pats mlen (pointed word) m
    ∧ weight_at m (Z.to_nat (p + 1)) = Some v
    ∧ val v mod 2 = 1 ∧ 0 < val v
    ∧ ∀ m' v', occurs pats mlen (pointed word) m' →
               weight_at m' (Z.to_nat (p + 1)) = Some v' → val v' ≤ val v.
Proof.
  unfold find_positions, points. rewrite elem_of_points_from.
  assert (Hlen : length (pointed word) = (length word + 2)%nat).
  { unfold pointed. rewrite !length_app. simpl. lia. }
  split.
  - intros (k & r & Hr & Hodd & ->).
    pose proof (lookup_lt_Some _ _ _ Hr) as Hk.
    rewrite scan_length, Hlen in Hk.
    rewrite scan_matches in Hr.
    destruct (overlay_all_max _ _ _ _ Hr) as (r0 & Hr0 & Hle & Hall & Hex).
    apply lookup_replicate_1 in Hr0 as [-> _]. simpl in Hle.
    replace (Z.to_nat (Z.of_nat (0 + k) - 1 + 1)) with k by lia.
    split; [lia|].
    destruct Hex as [->|(m & Hm & Hw)]; [done|].
    exists m, r. split_and!.
    + by apply elem_of_matches.
    + done.
    + pose proof (Z.mod_pos_bound (val r) 2). lia.
    + destruct (decide (val r = 0)) as [Hz|Hz]; [by rewrite Hz in Hodd|lia].
    + intros m' v' Hm'. apply Hall. by apply elem_of_matches.
  - intros (Hp & m & v & Hm & Hw & Hodd & Hpos & Hmax).
    set (k := Z.to_nat (p + 1)) in *.
    destruct (scan pats mlen (pointed word) !! k) as [r|] eqn:Hr.
    2:{ apply lookup_ge_None_1 in Hr. rewrite scan_length, Hlen in Hr. lia. }
    exists k, r. split_and!; [done| |lia].
    rewrite scan_matches in Hr.
    destruct (overlay_all_max _ _ _ _ Hr) as (r0 & Hr0 & Hle & Hall & Hex).
    apply lookup_replicate_1 in Hr0 as [-> _].
    assert (Hv : val v ≤ val r)
      by (apply (Hall m); [by apply elem_of_matches|done]).
    destruct Hex as [->|(m' & Hm' & Hw')]; [simpl in Hv; lia|].
    assert (val r ≤ val v)
      by (apply (Hmax m'); [by apply elem_of_matches|done]).
    replace (val r) with (val v) by lia. lia.
Qed.

Lemma break_iff_odd_maximum_witness :
  ∃ m v,
    occurs dic_patterns 3 (pointed (lit "xyz")) m
    ∧ weight_at m 2 = Some v ∧ val v = 1
    ∧ 1 ∈ map val (find_positions dic_patterns 3 (lit "xyz")).
Proof.
  exists (1%nat, (1%nat, [int 1; int 2; int 3])), (int 1).
  assert (Hm : occurs dic_patterns 3 (pointed (lit "xyz"))
                 (1%nat, (1%nat, [int 1; int 2; int 3]))).
  { exists (lit "xyz"). split_and!; [reflexivity|simpl; lia..|reflexivity]. }
  split_and!; [exact Hm|reflexivity|reflexivity|].
  apply (proj2 (break_iff_odd_maximum dic_patterns 3 (lit "xyz") 1)).
  split; [simpl; lia|].
  exists (1%nat, (1%nat, [int 1; int 2; int 3])), (int 1).
  split_and!; [exact Hm|reflexivity|reflexivity|reflexivity|].
  intros m' v' Hm' Hv'. apply elem_of_matches in Hm'.
  assert (Hms : matches dic_patterns 3 (pointed (lit "xyz"))
                = [(1%nat, (1%nat, [int 1; int 2; int 3]))])
    by (vm_compute; reflexivity).
  rewrite Hms in Hm'. apply list_elem_of_singleton in Hm' as ->.
  injection Hv' as <-. simpl. lia.
Defined.
